(** * tubes-js: the [TubesClient] connection manager and channel router

    A shallow embedding of [src/lib/client.ts].  The class is an
    event-driven program: public methods are [async] functions that
    suspend at every [await], and the browser calls back into the object
    when a timer fires or the socket opens, fails, closes or delivers a
    frame.  The embedding therefore is a transition system:

    - the fields of the class are the first eight fields of [State];
    - the remaining fields are the run-time objects the class creates or
      talks to: promises of connection attempts, sockets with their
      [on...] slots, the array objects behind [subscribedChannels], the
      queue of suspended [async] continuations, and a log of every
      externally visible call the class makes;
    - [step] executes one event: a public call up to its first [await],
      one continuation ([Tick]), or one browser callback.

    Continuations run in the order in which they became runnable; the
    additional microtask turns JavaScript spends on adopting a returned
    promise are not counted.  Events may interleave with continuations
    in any way, which includes every interleaving the event loop allows.

    Numbers (delays in milliseconds, ages in seconds, clock values) are
    integers.  Not embedded: [debug] (console output only), the JSON
    codec (frames are taken as decoded envelopes), exceptions raised by
    the transport in [send], and the bodies of user handlers (a handler
    is an identity that is logged when invoked).  The handler store is a
    finite map; channel names that collide with properties inherited
    from [Object.prototype] are outside the embedding. *)

From Stdlib Require Import ZArith String List Lia.
From stdpp Require Import base gmap strings list fin_maps.

Local Open Scope string_scope.
Local Open Scope Z_scope.
Local Open Scope list_scope.

(** ** Data model *)

(** [type MessageHandlerFn = (payload: any) => void].  Only the identity
    of a handler is observable to the class ([fn === handler]). *)
Definition MessageHandlerFn : Type := nat.

(** Payloads are opaque to the class. *)
Definition Payload : Type := string.

(** The default [payload = {}] of [send]. *)
Definition emptyPayload : Payload := "{}".

Module RealtimeMessageTypes.

Definition RealtimeMessageTypeSubscribe : string := "subscribe".
Definition RealtimeMessageTypeUnsubscribe : string := "unsubscribe".
Definition RealtimeMessageTypeChannelMessage : string := "message".

End RealtimeMessageTypes.
Import RealtimeMessageTypes.

(** The object handed to [JSON.stringify] in [send]. *)
Record Envelope : Type := mkEnvelope {
  env_type : string;
  env_channel : string;
  env_payload : Payload
}.

(** [interface TubesClientConfig]: every property is optional; [None] is
    an absent property.  [socket] is the identity of a pre-built
    transport. *)
Record TubesClientConfig : Type := mkConfig {
  socket : option nat;
  url : option string;
  retryDelay : option Z;
  exponentialRetryBackoff : option bool;
  maxRetryAge : option Z;
  debugging : option bool
}.

Definition defaultConfig : TubesClientConfig :=
  {| socket := None;
     url := None;
     retryDelay := Some 5000;
     maxRetryAge := Some (12 * 60 * 60);
     exponentialRetryBackoff := Some true;
     debugging := Some false |}.

(** One property of [{...a, ...b}]. *)
Definition spread {A : Type} (a b : option A) : option A :=
  match b with
  | Some v => Some v
  | None => a
  end.

(** [{ ...defaultConfig, ...config }] *)
Definition merge_config (d c : TubesClientConfig) : TubesClientConfig :=
  {| socket := spread (socket d) (socket c);
     url := spread (url d) (url c);
     retryDelay := spread (retryDelay d) (retryDelay c);
     exponentialRetryBackoff :=
       spread (exponentialRetryBackoff d) (exponentialRetryBackoff c);
     maxRetryAge := spread (maxRetryAge d) (maxRetryAge c);
     debugging := spread (debugging d) (debugging c) |}.

(** JavaScript truthiness of an optional number and an optional boolean. *)
Definition truthy_num (n : option Z) : bool :=
  match n with
  | Some v => negb (Z.eqb v 0)
  | None => false
  end.

Definition truthy_bool (b : option bool) : bool :=
  match b with
  | Some v => v
  | None => false
  end.

(** [WebSocket.readyState] *)
Inductive ReadyState : Type := CONNECTING | OPEN | CLOSING | CLOSED.

Definition ReadyState_eqb (a b : ReadyState) : bool :=
  match a, b with
  | CONNECTING, CONNECTING | OPEN, OPEN | CLOSING, CLOSING | CLOSED, CLOSED => true
  | _, _ => false
  end.

(** A socket object.  [onopen] and [onerror] hold closures created by a
    connection attempt (named by the attempt); [onmessage] and [onclose]
    are set by [addSocketHandler] and always close over the client. *)
Record Socket : Type := mkSocket {
  readyState : ReadyState;
  onopen : option nat;
  onerror : option nat;
  onmessage : bool;
  onclose : bool
}.

(** How far the executor of a [connectingPromise] has run. *)
Inductive Phase : Type :=
| Sleeping            (* suspended in [await timeout(delay)] *)
| Wired (s : nat)     (* [newSocket] chosen, callbacks installed *)
| Threw.              (* [new WebSocket(undefined)] raised *)

Inductive PromiseState : Type := Pending | Fulfilled | Failed.

(** One execution of the executor in [connect]: its captured parameter
    [isReconnect], its local [promiseDone], and the promise it settles. *)
Record Attempt : Type := mkAttempt {
  att_isReconnect : bool;
  att_promiseDone : bool;
  att_phase : Phase;
  att_promise : PromiseState
}.

(** Why a promise of the class is rejected. *)
Inductive Rejection : Type :=
| ClosedError      (* [Promise.reject()] at the [closed] guard of [connect] *)
| ConnectError     (* [rej()] in [onerror] *)
| TypeError.       (* [this.ws!.send] with [this.ws] undefined *)

(** Who awaits a call of [send]. *)
Inductive Caller : Type :=
| ByApi
| BySubscribe (channel : string)
| ByUnsubscribe (channel : string)
| ByUnsubscribeAll (channel : string)
| ByReconnect (arr idx : nat).

(** The suspended rest of an [async] function. *)
Inductive Cont : Type :=
| K_subscribe (channel : string) (fn : option MessageHandlerFn)
| K_unsubscribe (channel : string) (fn : option MessageHandlerFn)
| K_unsubscribeAll (channel : string)
| K_send (e : Envelope) (k : Caller)   (* [send], after [await this.lazyInit()] *)
| K_sent (e : Envelope) (k : Caller)   (* [send], after [await this.ws!.send(..)] *)
| K_return (k : Caller)                (* the caller, after [await this.send(..)] *)
| K_close.                             (* [close], after [await this.connectingPromise] *)

Record Task : Type := mkTask {
  task_id : nat;
  task_cont : Cont
}.

(** Calls that leave the class, and settlements of the promises it
    returns, in the order they happen. *)
Inductive Effect : Type :=
| SetTimeout (a : nat) (ms : Z)
| NewWebSocket (s : nat) (u : string)
| WsSend (s : nat) (e : Envelope)
| WsClose (s : nat)
| ConnectionStatus (status : bool)
| HandlerCall (fn : MessageHandlerFn) (p : Payload)
| Resolved (t : nat)
| Rejected (t : nat) (r : Rejection).

Record State : Type := mkState {
  (* fields of [TubesClient] *)
  closed : bool;
  initTime : Z;
  config : TubesClientConfig;
  connectingPromise : option nat;
  ws : option nat;
  handler : gmap string (list MessageHandlerFn);
  currentRetryDelay : Z;
  subscribedChannels : nat;          (* reference into [arrays] *)
  (* run-time objects *)
  arrays : gmap nat (list string);
  sockets : list Socket;
  attempts : list Attempt;
  ready : list Task;
  waiting : list (nat * Task);
  next_task : nat;
  log : list Effect
}.

(** The result of calling a function that returns a promise. *)
Inductive Awaited : Type :=
| Settled_ok
| Settled_err (r : Rejection)
| Pending_on (a : nat).

(** The public methods. *)
Inductive ApiCall : Type :=
| Subscribe (channel : string) (fn : option MessageHandlerFn)
| Unsubscribe (channel : string) (fn : option MessageHandlerFn)
| UnsubscribeAll (channel : string)
| Send (channel : string) (payload : option Payload) (type : option string)
| Close.

(** What can happen to a client.  [now] is the value of [new Date()]
    read by [retryConnect] inside the callback. *)
Inductive Event : Type :=
| Call (op : ApiCall)
| Tick
| TimerFire (a : nat)
| SockOpen (s : nat)
| SockError (s : nat) (now : Z)
| SockClose (s : nat) (now : Z)
| SockMessage (s : nat) (channel : string) (payload : Payload).

(** ** Field updates *)

Definition set_closed (v : bool) (st : State) : State :=
  mkState v (initTime st) (config st) (connectingPromise st) (ws st)
    (handler st) (currentRetryDelay st) (subscribedChannels st) (arrays st)
    (sockets st) (attempts st) (ready st) (waiting st) (next_task st) (log st).

Definition set_connectingPromise (v : option nat) (st : State) : State :=
  mkState (closed st) (initTime st) (config st) v (ws st)
    (handler st) (currentRetryDelay st) (subscribedChannels st) (arrays st)
    (sockets st) (attempts st) (ready st) (waiting st) (next_task st) (log st).

Definition set_ws (v : option nat) (st : State) : State :=
  mkState (closed st) (initTime st) (config st) (connectingPromise st) v
    (handler st) (currentRetryDelay st) (subscribedChannels st) (arrays st)
    (sockets st) (attempts st) (ready st) (waiting st) (next_task st) (log st).

Definition set_handler (v : gmap string (list MessageHandlerFn)) (st : State)
  : State :=
  mkState (closed st) (initTime st) (config st) (connectingPromise st) (ws st)
    v (currentRetryDelay st) (subscribedChannels st) (arrays st)
    (sockets st) (attempts st) (ready st) (waiting st) (next_task st) (log st).

Definition set_currentRetryDelay (v : Z) (st : State) : State :=
  mkState (closed st) (initTime st) (config st) (connectingPromise st) (ws st)
    (handler st) v (subscribedChannels st) (arrays st)
    (sockets st) (attempts st) (ready st) (waiting st) (next_task st) (log st).

Definition set_subscribedChannels (r : nat) (v : gmap nat (list string))
  (st : State) : State :=
  mkState (closed st) (initTime st) (config st) (connectingPromise st) (ws st)
    (handler st) (currentRetryDelay st) r v
    (sockets st) (attempts st) (ready st) (waiting st) (next_task st) (log st).

Definition set_sockets (v : list Socket) (st : State) : State :=
  mkState (closed st) (initTime st) (config st) (connectingPromise st) (ws st)
    (handler st) (currentRetryDelay st) (subscribedChannels st) (arrays st)
    v (attempts st) (ready st) (waiting st) (next_task st) (log st).

Definition set_attempts (v : list Attempt) (st : State) : State :=
  mkState (closed st) (initTime st) (config st) (connectingPromise st) (ws st)
    (handler st) (currentRetryDelay st) (subscribedChannels st) (arrays st)
    (sockets st) v (ready st) (waiting st) (next_task st) (log st).

Definition set_ready (v : list Task) (st : State) : State :=
  mkState (closed st) (initTime st) (config st) (connectingPromise st) (ws st)
    (handler st) (currentRetryDelay st) (subscribedChannels st) (arrays st)
    (sockets st) (attempts st) v (waiting st) (next_task st) (log st).

Definition set_waiting (v : list (nat * Task)) (st : State) : State :=
  mkState (closed st) (initTime st) (config st) (connectingPromise st) (ws st)
    (handler st) (currentRetryDelay st) (subscribedChannels st) (arrays st)
    (sockets st) (attempts st) (ready st) v (next_task st) (log st).

Definition set_next_task (v : nat) (st : State) : State :=
  mkState (closed st) (initTime st) (config st) (connectingPromise st) (ws st)
    (handler st) (currentRetryDelay st) (subscribedChannels st) (arrays st)
    (sockets st) (attempts st) (ready st) (waiting st) v (log st).

Definition set_log (v : list Effect) (st : State) : State :=
  mkState (closed st) (initTime st) (config st) (connectingPromise st) (ws st)
    (handler st) (currentRetryDelay st) (subscribedChannels st) (arrays st)
    (sockets st) (attempts st) (ready st) (waiting st) (next_task st) v.

(** An externally visible call is appended to the log. *)
Definition emit (e : Effect) (st : State) : State :=
  set_log (log st ++ [e]) st.

(** A continuation whose awaited value is available runs in a later
    microtask: it joins the queue at the back. *)
Definition enqueue (t : Task) (st : State) : State :=
  set_ready (ready st ++ [t]) st.

(** The array object [this.subscribedChannels] refers to. *)
Definition subscribed (st : State) : list string :=
  default [] (arrays st !! subscribedChannels st).

(** ** Promises of connection attempts *)

Definition promise_of (a : nat) (st : State) : option PromiseState :=
  att_promise <$> attempts st !! a.

Definition set_promise (p : PromiseState) (x : Attempt) : Attempt :=
  mkAttempt (att_isReconnect x) (att_promiseDone x) (att_phase x) p.

Definition set_promiseDone (b : bool) (x : Attempt) : Attempt :=
  mkAttempt (att_isReconnect x) b (att_phase x) (att_promise x).

Definition set_phase (ph : Phase) (x : Attempt) : Attempt :=
  mkAttempt (att_isReconnect x) (att_promiseDone x) ph (att_promise x).

Definition waits_on (a : nat) (w : nat * Task) : bool := Nat.eqb (fst w) a.

(** [await p] inside task [t]: what happens to the rest of the task. *)
Definition await (r : Awaited) (t : Task) (st : State) : State :=
  match r with
  | Settled_ok => enqueue t st
  | Settled_err e => emit (Rejected (task_id t) e) st
  | Pending_on a =>
      match promise_of a st with
      | Some Fulfilled => enqueue t st
      | Some Failed => emit (Rejected (task_id t) ConnectError) st
      | _ => set_waiting (waiting st ++ [(a, t)]) st
      end
  end.

(** [res()]: a pending promise is fulfilled and the continuations that
    await it are queued, in the order they started to wait. *)
Definition res (a : nat) (st : State) : State :=
  match attempts st !! a with
  | Some x =>
      match att_promise x with
      | Pending =>
          let woken := snd <$> List.filter (waits_on a) (waiting st) in
          let rest := List.filter (fun w => negb (waits_on a w)) (waiting st) in
          set_ready (ready st ++ woken)
            (set_waiting rest
               (set_attempts (<[a := set_promise Fulfilled x]> (attempts st)) st))
      | _ => st
      end
  | None => st
  end.

(** [rej()]: a pending promise is rejected; no function of the class
    catches, so every task that awaits it is rejected as a whole. *)
Definition rej (a : nat) (st : State) : State :=
  match attempts st !! a with
  | Some x =>
      match att_promise x with
      | Pending =>
          let lost := snd <$> List.filter (waits_on a) (waiting st) in
          let rest := List.filter (fun w => negb (waits_on a w)) (waiting st) in
          set_log (log st ++ ((fun t => Rejected (task_id t) ConnectError) <$> lost))
            (set_waiting rest
               (set_attempts (<[a := set_promise Failed x]> (attempts st)) st))
      | _ => st
      end
  | None => st
  end.

(** ** The methods of [TubesClient] *)

(** [constructor(config)]: [pre] lists the ready states of the sockets
    that already exist, so that a pre-built [config.socket] can refer to
    one of them; no closure of this client is installed on them yet. *)
Definition new_TubesClient (cfg : TubesClientConfig) (now : Z)
  (pre : list ReadyState) : State :=
  {| closed := false;
     initTime := now;
     config := merge_config defaultConfig cfg;
     connectingPromise := None;
     ws := None;
     handler := ∅;
     currentRetryDelay := 0;
     subscribedChannels := 0%nat;
     arrays := {[ 0%nat := [] ]};
     sockets := (fun r => mkSocket r None None false false) <$> pre;
     attempts := [];
     ready := [];
     waiting := [];
     next_task := 0%nat;
     log := [] |}.

(** [connect(delay, isReconnect)], up to the executor's
    [await timeout(delay)]. *)
Definition connect (delay : Z) (isReconnect : bool) (st : State)
  : Awaited * State :=
  if closed st then (Settled_err ClosedError, st)
  else
    match connectingPromise st with
    | Some a => (Pending_on a, st)
    | None =>
        let a := length (attempts st) in
        (Pending_on a,
         set_connectingPromise (Some a)
           (emit (SetTimeout a delay)
              (set_attempts
                 (attempts st ++ [mkAttempt isReconnect false Sleeping Pending])
                 st)))
    end.

(** [lazyInit()] *)
Definition lazyInit (st : State) : Awaited * State :=
  match ws st with
  | Some _ => (Settled_ok, st)
  | None =>
      match connectingPromise st with
      | Some a => (Pending_on a, st)
      | None => connect 0 false st
      end
  end.

(** The object [{type, channel, payload}] built in [send], with the
    defaults of its parameters. *)
Definition envelope (channel : string) (payload : option Payload)
  (type : option string) : Envelope :=
  {| env_type := default RealtimeMessageTypeChannelMessage type;
     env_channel := channel;
     env_payload := default emptyPayload payload |}.

(** [send(channel, {payload, type})] called inside task [t] on behalf of
    [k], up to [await this.lazyInit()]. *)
Definition send (t : nat) (channel : string) (payload : option Payload)
  (type : option string) (k : Caller) (st : State) : State :=
  let '(r, st1) := lazyInit st in
  await r (mkTask t (K_send (envelope channel payload type) k)) st1.

(** [this.handler[channel] && this.handler[channel].length > 0] *)
Definition has_handlers (channel : string) (st : State) : bool :=
  match handler st !! channel with
  | Some (_ :: _) => true
  | _ => false
  end.

(** [registerHandler(channel, handler)] *)
Definition registerHandler (channel : string) (fn : MessageHandlerFn)
  (st : State) : State :=
  let st1 :=
    match handler st !! channel with
    | Some _ => st
    | None => set_handler (<[channel := []]> (handler st)) st
    end in
  set_handler
    (<[channel := default [] (handler st1 !! channel) ++ [fn]]> (handler st1))
    st1.

(** [unregisterHandler(channel, handler)]: the predicate handed to
    [filter] is [fn === handler]. *)
Definition unregisterHandler (channel : string) (fn0 : MessageHandlerFn)
  (st : State) : State :=
  match handler st !! channel with
  | Some l =>
      set_handler
        (<[channel := List.filter (fun fn => Nat.eqb fn fn0) l]> (handler st)) st
  | None => st
  end.

(** [this.subscribedChannels.push(channel)]: the array object is
    changed in place. *)
Definition push_channel (channel : string) (st : State) : State :=
  set_subscribedChannels (subscribedChannels st)
    (<[subscribedChannels st := subscribed st ++ [channel]]> (arrays st)) st.

(** [this.subscribedChannels = this.subscribedChannels.filter(c => c !== channel)]:
    a new array object replaces the old one, which stays as it is. *)
Definition drop_channel (channel : string) (st : State) : State :=
  let r := S (subscribedChannels st) in
  set_subscribedChannels r
    (<[r := List.filter (fun c => negb (String.eqb c channel)) (subscribed st)]>
       (arrays st)) st.

(** [triggerConnectionStatusEvent(status)] *)
Definition triggerConnectionStatusEvent (status : bool) (st : State) : State :=
  emit (ConnectionStatus status) st.

(** [handleMessage({channel, payload})] *)
Definition handleMessage (channel : string) (payload : Payload) (st : State)
  : State :=
  match handler st !! channel with
  | Some l => foldl (fun s fn => emit (HandlerCall fn payload) s) st l
  | None => st
  end.

(** One turn of the [for ... of] loop of [handleReconnect]: the iterator
    reads position [idx] of the array object [arr] it was created on. *)
Definition reconnect_loop (t arr idx : nat) (st : State) : State :=
  match arrays st !! arr ≫= (fun l => l !! idx) with
  | Some channel =>
      send t channel None (Some RealtimeMessageTypeSubscribe)
        (ByReconnect arr (S idx)) st
  | None => emit (Resolved t) st
  end.

(** [handleReconnect()], up to its first [await]. *)
Definition handleReconnect (st : State) : State :=
  let t := next_task st in
  reconnect_loop t (subscribedChannels st) 0 (set_next_task (S t) st).

(** [addSocketHandler(socket)] *)
Definition set_handlers (k : Socket) : Socket :=
  mkSocket (readyState k) (onopen k) (onerror k) true true.

Definition addSocketHandler (s : nat) (st : State) : State :=
  set_sockets (alter set_handlers s (sockets st)) st.

(** The closure [runOnSuccess] of attempt [a]. *)
Definition runOnSuccess (a : nat) (st : State) : State :=
  match attempts st !! a with
  | Some x =>
      if att_promiseDone x then st
      else
        match att_phase x with
        | Wired newSocket =>
            let st1 :=
              set_attempts (<[a := set_promiseDone true x]> (attempts st)) st in
            let st2 := set_currentRetryDelay 0 st1 in
            let st3 := addSocketHandler newSocket st2 in
            let st4 := set_ws (Some newSocket) st3 in
            let st5 := triggerConnectionStatusEvent true st4 in
            let st6 := set_connectingPromise None st5 in
            let st7 := res a st6 in
            if att_isReconnect x then handleReconnect st7 else st7
        | _ => st
        end
  | None => st
  end.

(** [retryConnect()]; it has no [await] and runs to its end at once. *)
Definition retryConnect (now : Z) (st : State) : State :=
  if closed st then st
  else
    let timeSinceInit := now - initTime st in
    if truthy_num (maxRetryAge (config st))
       && (default 0 (maxRetryAge (config st)) * 1000 <? timeSinceInit)
    then st
    else
      let d :=
        if truthy_bool (exponentialRetryBackoff (config st))
        then currentRetryDelay st * 2
        else default 0 (retryDelay (config st)) in
      snd (connect d true (set_currentRetryDelay d st)).

(** The closure [newSocket.onerror] of attempt [a]. *)
Definition socket_onerror (a : nat) (now : Z) (st : State) : State :=
  match attempts st !! a with
  | Some x =>
      if att_promiseDone x then st
      else retryConnect now (rej a (set_connectingPromise None st))
  | None => st
  end.

(** The closure [socket.onclose] installed by [addSocketHandler]. *)
Definition socket_onclose (now : Z) (st : State) : State :=
  retryConnect now (set_ws None (triggerConnectionStatusEvent false st)).

Definition set_onerror (a : nat) (k : Socket) : Socket :=
  mkSocket (readyState k) (onopen k) (Some a) (onmessage k) (onclose k).

Definition set_onopen (a : nat) (k : Socket) : Socket :=
  mkSocket (readyState k) (Some a) (onerror k) (onmessage k) (onclose k).

Definition set_readyState (r : ReadyState) (k : Socket) : Socket :=
  mkSocket r (onopen k) (onerror k) (onmessage k) (onclose k).

(** The executor of attempt [a] from the choice of [newSocket] on.  (A
    [config.socket] that names no socket of the state stands for no
    object; nothing happens then.) *)
Definition wire (a s : nat) (st : State) : State :=
  match attempts st !! a, sockets st !! s with
  | Some x, Some k =>
      let st1 :=
        set_sockets (<[s := set_onerror a k]> (sockets st))
          (set_attempts (<[a := set_phase (Wired s) x]> (attempts st)) st) in
      if ReadyState_eqb (readyState k) OPEN then runOnSuccess a st1
      else set_sockets (<[s := set_onopen a (set_onerror a k)]> (sockets st)) st1
  | _, _ => st
  end.

(** The executor of attempt [a] after [await timeout(delay)]. *)
Definition timer_fired (a : nat) (st : State) : State :=
  match attempts st !! a with
  | Some x =>
      match att_phase x with
      | Sleeping =>
          match socket (config st) with
          | Some s => wire a s st
          | None =>
              match url (config st) with
              | Some u =>
                  let s := length (sockets st) in
                  wire a s
                    (emit (NewWebSocket s u)
                       (set_sockets
                          (sockets st ++ [mkSocket CONNECTING None None false false])
                          st))
              | None =>
                  set_attempts (<[a := set_phase Threw x]> (attempts st)) st
              end
          end
      | _ => st
      end
  | None => st
  end.

(** [this.ws.close()] *)
Definition ws_close (s : nat) (st : State) : State :=
  match sockets st !! s with
  | Some k =>
      emit (WsClose s)
        (match readyState k with
         | CONNECTING | OPEN =>
             set_sockets (<[s := set_readyState CLOSING k]> (sockets st)) st
         | _ => st
         end)
  | None => st
  end.

(** [close()] after the optional [await this.connectingPromise]. *)
Definition close_finish (t : nat) (st : State) : State :=
  emit (Resolved t)
    (match ws st with
     | Some s => ws_close s st
     | None => st
     end).

(** [close()], up to its first [await]. *)
Definition close (t : nat) (st : State) : State :=
  let st1 := set_closed true st in
  match connectingPromise st1 with
  | Some a => await (Pending_on a) (mkTask t K_close) st1
  | None => close_finish t st1
  end.

(** The three subscription methods, up to [await this.lazyInit()]. *)
Definition subscribe (t : nat) (channel : string)
  (fn : option MessageHandlerFn) (st : State) : State :=
  let '(r, st1) := lazyInit st in
  await r (mkTask t (K_subscribe channel fn)) st1.

Definition unsubscribe (t : nat) (channel : string)
  (fn : option MessageHandlerFn) (st : State) : State :=
  let '(r, st1) := lazyInit st in
  await r (mkTask t (K_unsubscribe channel fn)) st1.

Definition unsubscribeAll (t : nat) (channel : string) (st : State) : State :=
  let '(r, st1) := lazyInit st in
  await r (mkTask t (K_unsubscribeAll channel)) st1.

(** The caller of [send] goes on after [await this.send(..)]. *)
Definition after_send (t : nat) (k : Caller) (st : State) : State :=
  match k with
  | ByApi => emit (Resolved t) st
  | BySubscribe channel => emit (Resolved t) (push_channel channel st)
  | ByUnsubscribe channel => emit (Resolved t) (drop_channel channel st)
  | ByUnsubscribeAll channel => emit (Resolved t) (drop_channel channel st)
  | ByReconnect arr idx => reconnect_loop t arr idx st
  end.

(** A queued continuation runs up to the next [await] of its task. *)
Definition resume (t : Task) (st : State) : State :=
  let tid := task_id t in
  match task_cont t with
  | K_subscribe channel fn =>
      let hasHandlersAlready := has_handlers channel st in
      let st1 :=
        match fn with
        | Some f => registerHandler channel f st
        | None => st
        end in
      if hasHandlersAlready then emit (Resolved tid) st1
      else
        send tid channel None (Some RealtimeMessageTypeSubscribe)
          (BySubscribe channel) st1
  | K_unsubscribe channel fn =>
      let st1 :=
        match fn with
        | Some f => unregisterHandler channel f st
        | None => st
        end in
      if has_handlers channel st1 then emit (Resolved tid) st1
      else
        send tid channel None (Some RealtimeMessageTypeUnsubscribe)
          (ByUnsubscribe channel) st1
  | K_unsubscribeAll channel =>
      send tid channel None (Some RealtimeMessageTypeUnsubscribe)
        (ByUnsubscribeAll channel)
        (set_handler (delete channel (handler st)) st)
  | K_send e k =>
      match ws st with
      | Some s => enqueue (mkTask tid (K_sent e k)) (emit (WsSend s e) st)
      | None => emit (Rejected tid TypeError) st
      end
  | K_sent e k =>
      match k with
      | ByApi => emit (Resolved tid) st
      | _ => enqueue (mkTask tid (K_return k)) st
      end
  | K_return k => after_send tid k st
  | K_close => close_finish tid st
  end.

(** A public method is called: it gets a fresh task and runs up to its
    first [await]. *)
Definition call (op : ApiCall) (st : State) : State :=
  let t := next_task st in
  let st1 := set_next_task (S t) st in
  match op with
  | Subscribe channel fn => subscribe t channel fn st1
  | Unsubscribe channel fn => unsubscribe t channel fn st1
  | UnsubscribeAll channel => unsubscribeAll t channel st1
  | Send channel payload type => send t channel payload type ByApi st1
  | Close => close t st1
  end.

(** The browser's side of a socket: [open] is delivered to a connecting
    socket; [error] is delivered with the socket already closed and is
    followed by [close]; a socket that is closed delivers nothing. *)
Definition fire_onclose (s : nat) (now : Z) (st : State) : State :=
  match sockets st !! s with
  | Some k => if onclose k then socket_onclose now st else st
  | None => st
  end.

Definition step (ev : Event) (st : State) : State :=
  match ev with
  | Call op => call op st
  | Tick =>
      match ready st with
      | t :: r => resume t (set_ready r st)
      | [] => st
      end
  | TimerFire a => timer_fired a st
  | SockOpen s =>
      match sockets st !! s with
      | Some k =>
          match readyState k with
          | CONNECTING =>
              let st1 :=
                set_sockets (<[s := set_readyState OPEN k]> (sockets st)) st in
              match onopen k with
              | Some a => runOnSuccess a st1
              | None => st1
              end
          | _ => st
          end
      | None => st
      end
  | SockError s now =>
      match sockets st !! s with
      | Some k =>
          match readyState k with
          | CLOSED => st
          | _ =>
              let st1 :=
                set_sockets (<[s := set_readyState CLOSED k]> (sockets st)) st in
              let st2 :=
                match onerror k with
                | Some a => socket_onerror a now st1
                | None => st1
                end in
              fire_onclose s now st2
          end
      | None => st
      end
  | SockClose s now =>
      match sockets st !! s with
      | Some k =>
          match readyState k with
          | CLOSED => st
          | _ =>
              fire_onclose s now
                (set_sockets (<[s := set_readyState CLOSED k]> (sockets st)) st)
          end
      | None => st
      end
  | SockMessage s channel payload =>
      match sockets st !! s with
      | Some k =>
          match readyState k with
          | OPEN | CLOSING =>
              if onmessage k then handleMessage channel payload st else st
          | _ => st
          end
      | None => st
      end
  end.

(** A sequence of events, oldest first. *)
Definition run (evs : list Event) (st : State) : State :=
  foldl (fun s ev => step ev s) st evs.

(** The microtask queue is emptied: continuations run, oldest first,
    until none is queued or the fuel is used up. *)
Fixpoint drain (fuel : nat) (st : State) : State :=
  match fuel with
  | O => st
  | S n =>
      match ready st with
      | [] => st
      | _ :: _ => drain n (step Tick st)
      end
  end.

(** ** Observations on the log *)

Definition sent (l : list Effect) : list (nat * Envelope) :=
  omap (fun e => match e with WsSend s v => Some (s, v) | _ => None end) l.

Definition timeouts (l : list Effect) : list Z :=
  omap (fun e => match e with SetTimeout _ ms => Some ms | _ => None end) l.

Definition constructed (l : list Effect) : list nat :=
  omap (fun e => match e with NewWebSocket s _ => Some s | _ => None end) l.

Definition invoked (l : list Effect) : list (MessageHandlerFn * Payload) :=
  omap (fun e => match e with HandlerCall f p => Some (f, p) | _ => None end) l.

(** Calls to the transport or its constructor, and timers. *)
Definition is_io (e : Effect) : bool :=
  match e with
  | SetTimeout _ _ | NewWebSocket _ _ | WsSend _ _ | WsClose _ => true
  | _ => false
  end.

Definition subscribe_env (channel : string) : Envelope :=
  envelope channel None (Some RealtimeMessageTypeSubscribe).

Definition unsubscribe_env (channel : string) : Envelope :=
  envelope channel None (Some RealtimeMessageTypeUnsubscribe).

(** ** Notions used in the statements *)

(** The part of the state that the connection manager reads and writes:
    everything but handlers, channel arrays, suspended tasks, and the log
    entries that are neither timers nor constructions. *)
Definition core (st : State) :=
  (closed st, initTime st, config st, connectingPromise st, ws st,
   currentRetryDelay st, sockets st, attempts st,
   timeouts (log st), constructed (log st)).

(** What a public call or a continuation may do to the connection
    manager: nothing, or start the one attempt [lazyInit] may start. *)
Definition calm (st st' : State) : Prop :=
  core st' = core st \/ core st' = core (snd (connect 0 false st)).

(** Log entries that are neither a timer nor a construction. *)
Definition silent (e : Effect) : bool :=
  match e with
  | SetTimeout _ _ | NewWebSocket _ _ => false
  | _ => true
  end.

(** The promise of attempt [a] is settled with [p], if it is pending. *)
Definition settle (p : PromiseState) (a : nat) (l : list Attempt)
  : list Attempt :=
  match l !! a with
  | Some x =>
      match att_promise x with
      | Pending => <[a := set_promise p x]> l
      | _ => l
      end
  | None => l
  end.

(** An attempt is in flight while its promise is pending. *)
Definition pending (x : Attempt) : bool :=
  match att_promise x with
  | Pending => true
  | _ => false
  end.

Definition in_flight (st : State) : list Attempt :=
  List.filter pending (attempts st).

(** For each attempt, whether [retryConnect] started it; and how many
    attempts it started. *)
Definition retry_flags (st : State) : list bool :=
  att_isReconnect <$> attempts st.

Definition retries (st : State) : nat :=
  length (List.filter (fun b : bool => b) (retry_flags st)).

(** The guard of [retryConnect] on the age of the client. *)
Definition too_old (now : Z) (st : State) : bool :=
  truthy_num (maxRetryAge (config st))
  && (default 0 (maxRetryAge (config st)) * 1000 <? now - initTime st).

(** The delay [retryConnect] computes. *)
Definition next_delay (st : State) : Z :=
  if truthy_bool (exponentialRetryBackoff (config st))
  then currentRetryDelay st * 2
  else default 0 (retryDelay (config st)).

(** The clock value an event reads, if it reads one. *)
Definition event_time (ev : Event) : option Z :=
  match ev with
  | SockError _ now | SockClose _ now => Some now
  | _ => None
  end.

(** The closures on a socket that can still be called. *)
Definition calls (k : Socket) (a : nat) : Prop :=
  readyState k <> CLOSED /\ (onerror k = Some a \/ onopen k = Some a).

(** Every callable closure of [S'] is one of [S]. *)
Definition sockets_le (S' S : list Socket) : Prop :=
  forall s k' a, S' !! s = Some k' -> calls k' a ->
  exists k, S !! s = Some k /\ calls k a.

(** Single flight, as an invariant of the promise slot [p], the
    attempts [A] and the sockets [S]: the slot names the one pending
    attempt, and a closure that can still be called belongs to an
    attempt that has not failed. *)
Record sf (p : option nat) (A : list Attempt) (S : list Socket) : Prop := {
  sf_pending : forall a x,
    A !! a = Some x -> att_promise x = Pending -> p = Some a;
  sf_slot : forall a,
    p = Some a -> exists x, A !! a = Some x /\ att_promise x = Pending;
  sf_done : forall a x,
    A !! a = Some x -> att_promise x = Fulfilled -> att_promiseDone x = true;
  sf_unwired : forall a x,
    A !! a = Some x -> (forall s, att_phase x <> Wired s) ->
    att_promise x = Pending /\ att_promiseDone x = false;
  sf_closures : forall s k a,
    S !! s = Some k -> calls k a ->
    exists x, A !! a = Some x /\ att_promise x <> Failed
              /\ att_phase x = Wired s
}.

Definition single_flight (st : State) : Prop :=
  sf (connectingPromise st) (attempts st) (sockets st).

(** What any step keeps, for a client whose retries (if any happen in
    the step) find it too old when [aged] holds. *)
Definition lawful (aged : bool) (st st' : State) : Prop :=
  config st' = config st /\ initTime st' = initTime st /\
  (closed st = true -> closed st' = true) /\
  (closed st = true -> connectingPromise st = None ->
   connectingPromise st' = None) /\
  (truthy_bool (exponentialRetryBackoff (config st)) = true ->
   currentRetryDelay st = 0 ->
   currentRetryDelay st' = 0 /\
   exists k, timeouts (log st') = timeouts (log st) ++ replicate k 0) /\
  (aged = true ->
   exists k, retry_flags st' = retry_flags st ++ replicate k false).

(** What a step keeps of a closed client: it stays closed, and the
    promise slot is emptied or stays as it is with everybody who waits
    still waiting. *)
Definition shut (st st' : State) : Prop :=
  closed st = true ->
  closed st' = true /\
  (connectingPromise st' = None \/
   (connectingPromise st' = connectingPromise st /\
    forall w, w ∈ waiting st -> w ∈ waiting st')).

(** A call of [close()] is suspended in [await this.connectingPromise]. *)
Definition is_close (k : Cont) : bool :=
  match k with
  | K_close => true
  | _ => false
  end.

Definition close_waiting (st : State) : bool :=
  existsb (fun w => is_close (task_cont (snd w))) (waiting st).

(** While a closed client has an attempt in its promise slot, a call of
    [close()] waits for that attempt. *)
Definition closing (st : State) : Prop :=
  closed st = true ->
  forall a, connectingPromise st = Some a ->
  exists t, (a, mkTask t K_close) ∈ waiting st.

(** Whether a retry triggered by [ev] would find the client too old;
    events that read no clock trigger no retry. *)
Definition old_at (st : State) (ev : Event) : bool :=
  match event_time ev with
  | Some now => too_old now st
  | None => true
  end.

(** ** Clients used to evaluate the statements *)

Definition example_config : TubesClientConfig :=
  {| socket := None;
     url := Some "ws://tubes";
     retryDelay := Some 1000;
     exponentialRetryBackoff := Some true;
     maxRetryAge := None;
     debugging := None |}.

Definition example_client : State := new_TubesClient example_config 0 [].

(** [send] connects the client lazily: the timer fires, the socket
    opens, and two continuations write the frame. *)
Definition connected_client : State :=
  run [Call (Send "hello" None None); TimerFire 0; SockOpen 0; Tick; Tick]
    example_client.

(** Two channels with a handler each. *)
Definition subscribed_client : State :=
  drain 4 (call (Subscribe "b" (Some 2%nat))
    (drain 4 (call (Subscribe "a" (Some 1%nat)) connected_client))).


(** [close()] on a connected client. *)
Definition closed_client : State := step (Call Close) connected_client.

(** A client configured with [maxRetryAge: 0], connecting. *)
Definition ageless_config : TubesClientConfig :=
  {| socket := None;
     url := Some "ws://tubes";
     retryDelay := None;
     exponentialRetryBackoff := None;
     maxRetryAge := Some 0;
     debugging := None |}.

Definition ageless_client : State :=
  run [Call (Send "hello" None None); TimerFire 0]
    (new_TubesClient ageless_config 0 []).

(** Three connection failures in a row, at times 10, 20 and 30. *)
Definition three_failures : list Event :=
  [Call (Send "hello" None None);
   TimerFire 0; SockError 0 10;
   TimerFire 1; SockError 1 20;
   TimerFire 2; SockError 2 30].

(** Calls of [subscribe] issued one after the other, none of them
    resumed in between. *)
Definition subscribe_calls (subs : list (string * option MessageHandlerFn))
  : list Event :=
  (fun p => Call (Subscribe (fst p) (snd p))) <$> subs.

(** The state while [k] calls wait for the first attempt of a client
    that builds its transport from [url]. *)
Definition first_attempt_waited (u : string) (k : nat) (st : State) : Prop :=
  closed st = false /\ ws st = None /\ connectingPromise st = Some 0%nat /\
  attempts st = [mkAttempt false false Sleeping Pending] /\
  sockets st = [] /\ log st = [SetTimeout 0 0] /\
  fst <$> waiting st = replicate k 0%nat /\
  socket (config st) = None /\ url (config st) = Some u.


(** ** Further notions *)

(** The connectivity signals dispatched on [window], oldest first. *)
Definition statuses (l : list Effect) : list bool :=
  omap (fun e => match e with ConnectionStatus b => Some b | _ => None end) l.

(** The channel a subscription method works on. *)
Definition channel_of (op : ApiCall) : option string :=
  match op with
  | Subscribe c _ | Unsubscribe c _ | UnsubscribeAll c => Some c
  | _ => None
  end.

(** The entries of the subscribed-channel sequence other than [c]. *)
Definition others (c : string) (l : list string) : list string :=
  List.filter (fun c' => negb (String.eqb c' c)) l.

(** A socket that carries the callbacks of [addSocketHandler] and has
    left the connecting state. *)
Definition wired (k : Socket) : Prop :=
  onmessage k = true /\ onclose k = true /\ readyState k <> CONNECTING.

(** The transport the client holds, if it holds one, is such a socket. *)
Definition holds_wired_transport (st : State) : Prop :=
  forall s, ws st = Some s -> exists k, sockets st !! s = Some k /\ wired k.

(** While an attempt is in the promise slot the client holds no
    transport. *)
Definition one_link (st : State) : Prop :=
  forall a, connectingPromise st = Some a -> ws st = None.

(** The client holds a transport exactly when the last connectivity
    signal it dispatched is [true]. *)
Definition signals_match (st : State) : Prop :=
  match ws st with
  | Some _ => last (statuses (log st)) = Some true
  | None => last (statuses (log st)) <> Some true
  end.

(** Every wired socket of [S] is a wired socket of [S']. *)
Definition wired_le (S S' : list Socket) : Prop :=
  forall s k, S !! s = Some k -> wired k ->
  exists k', S' !! s = Some k' /\ wired k'.

(** What the link to the server consists of. *)
Definition link (st : State) :=
  (connectingPromise st, ws st, sockets st, statuses (log st)).

(** A step that neither gains nor loses the transport and signals
    nothing; it may start an attempt if there is no transport. *)
Definition tame (st st' : State) : Prop :=
  ws st' = ws st /\ wired_le (sockets st) (sockets st') /\
  statuses (log st') = statuses (log st) /\
  (connectingPromise st' = connectingPromise st \/ ws st = None).

Definition linked (st : State) : Prop :=
  one_link st /\ holds_wired_transport st /\ signals_match st.

(** Timers and attempts go together, a closed client starts neither,
    and a client given its transport constructs none. *)
Definition paced (st st' : State) : Prop :=
  config st' = config st /\
  (closed st = true -> closed st' = true) /\
  exists T N,
    timeouts (log st') = timeouts (log st) ++ T /\
    length (attempts st') = (length (attempts st) + length T)%nat /\
    (closed st = true -> T = []) /\
    constructed (log st') = constructed (log st) ++ N /\
    (is_Some (socket (config st)) -> N = []).

(** A client built around an open transport it was given, connected by
    its first call, and closed. *)
Definition given_config : TubesClientConfig :=
  {| socket := Some 0%nat;
     url := None;
     retryDelay := None;
     exponentialRetryBackoff := None;
     maxRetryAge := None;
     debugging := None |}.

Definition given_client : State := new_TubesClient given_config 0 [OPEN].

(** The rest of a public method after its first [await]. *)
Definition first_cont (op : ApiCall) : Cont :=
  match op with
  | Subscribe c fn => K_subscribe c fn
  | Unsubscribe c fn => K_unsubscribe c fn
  | UnsubscribeAll c => K_unsubscribeAll c
  | Send c p ty => K_send (envelope c p ty) ByApi
  | Close => K_close
  end.

(** An open client without transport, attempt or task. *)
Definition idle_offline (st : State) : Prop :=
  closed st = false /\ ws st = None /\ connectingPromise st = None /\
  ready st = [] /\ waiting st = [].


(** A first call has started an attempt, whose socket is connecting. *)
Definition connecting_client : State :=
  run [Call (Send "hello" None None); TimerFire 0] example_client.

(** * Proofs *)

(** ** Running continuations on a connected, idle client *)

Lemma drain_nil fuel st : ready st = [] -> drain fuel st = st.
Proof. destruct fuel; simpl; [done|]. by intros ->. Qed.

Lemma set_ready_id st : set_ready (ready st) st = st.
Proof. by destruct st. Qed.

Lemma drain_enqueue n t st :
  ready st = [] -> drain (S n) (enqueue t st) = drain n (resume t st).
Proof.
  intros H. simpl. rewrite H. simpl.
  replace (set_ready [] (enqueue t st)) with (set_ready (ready st) st).
  - by rewrite set_ready_id.
  - by rewrite H.
Qed.

Arguments drain : simpl never.

Lemma lazyInit_connected st s : ws st = Some s -> lazyInit st = (Settled_ok, st).
Proof. unfold lazyInit. by intros ->. Qed.

Lemma send_connected st s t c p ty k :
  ws st = Some s ->
  send t c p ty k st = enqueue (mkTask t (K_send (envelope c p ty) k)) st.
Proof. intros H. unfold send. by rewrite (lazyInit_connected _ _ H). Qed.

Lemma ws_registerHandler c f st : ws (registerHandler c f st) = ws st.
Proof. unfold registerHandler. by destruct (handler st !! c). Qed.

Lemma ready_registerHandler c f st : ready (registerHandler c f st) = ready st.
Proof. unfold registerHandler. by destruct (handler st !! c). Qed.

Lemma ws_unregisterHandler c f st : ws (unregisterHandler c f st) = ws st.
Proof. unfold unregisterHandler. by destruct (handler st !! c). Qed.

Lemma ready_unregisterHandler c f st :
  ready (unregisterHandler c f st) = ready st.
Proof. unfold unregisterHandler. by destruct (handler st !! c). Qed.

Lemma ws_emit e st : ws (emit e st) = ws st.
Proof. done. Qed.

Lemma ready_emit e st : ready (emit e st) = ready st.
Proof. done. Qed.

Lemma ws_set_next_task n st : ws (set_next_task n st) = ws st.
Proof. done. Qed.

Lemma ready_set_next_task n st : ready (set_next_task n st) = ready st.
Proof. done. Qed.

Lemma ws_set_handler h st : ws (set_handler h st) = ws st.
Proof. done. Qed.

Lemma ready_set_handler h st : ready (set_handler h st) = ready st.
Proof. done. Qed.

Lemma ws_push_channel c st : ws (push_channel c st) = ws st.
Proof. done. Qed.

Lemma ready_push_channel c st : ready (push_channel c st) = ready st.
Proof. done. Qed.

Lemma ws_drop_channel c st : ws (drop_channel c st) = ws st.
Proof. done. Qed.

Lemma ready_drop_channel c st : ready (drop_channel c st) = ready st.
Proof. done. Qed.

Create Rewrite HintDb idle.
#[local] Hint Rewrite ws_registerHandler ready_registerHandler
  ws_unregisterHandler ready_unregisterHandler ws_emit ready_emit
  ws_set_next_task ready_set_next_task ws_set_handler ready_set_handler
  ws_push_channel ready_push_channel ws_drop_channel ready_drop_channel : idle.

(** Side conditions [ws _ = Some s] and [ready _ = []] of a state
    reached from a connected, idle one. *)
Ltac idle := repeat case_match; autorewrite with idle; done.

(** [send] for a caller inside the class: three continuations later the
    frame is written and the caller goes on. *)
Lemma drain_send n st s t c p ty k :
  ws st = Some s -> ready st = [] -> k <> ByApi ->
  drain (3 + n) (send t c p ty k st) =
  drain n (after_send t k (emit (WsSend s (envelope c p ty)) st)).
Proof.
  intros Hws Hr Hk. rewrite (send_connected _ s) by done.
  change (3 + n)%nat with (S (S (S n))).
  rewrite drain_enqueue by done.
  unfold resume at 1. simpl. rewrite Hws.
  rewrite drain_enqueue by done.
  unfold resume at 1; simpl.
  destruct k; try done; rewrite drain_enqueue by done; reflexivity.
Qed.

(** The public [send]: two continuations. *)
Lemma drain_send_api n st s c p ty :
  ws st = Some s -> ready st = [] ->
  drain (2 + n) (call (Send c p ty) st) =
  emit (Resolved (next_task st))
    (emit (WsSend s (envelope c p ty)) (set_next_task (S (next_task st)) st)).
Proof.
  intros Hws Hr. unfold call. rewrite (send_connected _ s) by done.
  change (2 + n)%nat with (S (S n)).
  rewrite drain_enqueue by done.
  unfold resume at 1. simpl. rewrite Hws.
  rewrite drain_enqueue by done.
  by rewrite drain_nil.
Qed.

Lemma drain_subscribe n st s c fn :
  ws st = Some s -> ready st = [] ->
  drain (4 + n) (call (Subscribe c fn) st) =
  let t := next_task st in
  let st1 :=
    match fn with
    | Some f => registerHandler c f (set_next_task (S t) st)
    | None => set_next_task (S t) st
    end in
  if has_handlers c st then emit (Resolved t) st1
  else emit (Resolved t) (push_channel c (emit (WsSend s (subscribe_env c)) st1)).
Proof.
  intros Hws Hr. unfold call, subscribe.
  rewrite (lazyInit_connected _ s) by done. unfold await.
  change (4 + n)%nat with (S (3 + n)).
  rewrite drain_enqueue by done.
  unfold resume at 1. simpl task_cont. cbv iota. simpl task_id.
  change (has_handlers c (set_next_task (S (next_task st)) st))
    with (has_handlers c st).
  destruct (has_handlers c st).
  - rewrite drain_nil; [done|idle].
  - rewrite (drain_send _ _ s); [|idle..|done].
    rewrite drain_nil; [done|]. unfold after_send. idle.
Qed.

Lemma drain_unsubscribe n st s c fn :
  ws st = Some s -> ready st = [] ->
  drain (4 + n) (call (Unsubscribe c fn) st) =
  let t := next_task st in
  let st1 :=
    match fn with
    | Some f => unregisterHandler c f (set_next_task (S t) st)
    | None => set_next_task (S t) st
    end in
  if has_handlers c st1 then emit (Resolved t) st1
  else emit (Resolved t) (drop_channel c (emit (WsSend s (unsubscribe_env c)) st1)).
Proof.
  intros Hws Hr. unfold call, unsubscribe.
  rewrite (lazyInit_connected _ s) by done. unfold await.
  change (4 + n)%nat with (S (3 + n)).
  rewrite drain_enqueue by done.
  unfold resume at 1. simpl task_cont. cbv iota. simpl task_id. cbv zeta.
  case_match.
  - rewrite drain_nil; [done|idle].
  - rewrite (drain_send _ _ s); [|idle..|done].
    rewrite drain_nil; [done|]. unfold after_send. idle.
Qed.

Lemma drain_unsubscribeAll n st s c :
  ws st = Some s -> ready st = [] ->
  drain (4 + n) (call (UnsubscribeAll c) st) =
  let t := next_task st in
  emit (Resolved t)
    (drop_channel c
       (emit (WsSend s (unsubscribe_env c))
          (set_handler (delete c (handler st)) (set_next_task (S t) st)))).
Proof.
  intros Hws Hr. unfold call, unsubscribeAll.
  rewrite (lazyInit_connected _ s) by done. unfold await.
  change (4 + n)%nat with (S (3 + n)).
  rewrite drain_enqueue by done.
  unfold resume at 1. simpl task_cont. cbv iota. simpl task_id.
  rewrite (drain_send _ _ s); [|idle..|done].
  rewrite drain_nil; [done|]. unfold after_send. idle.
Qed.


(** ** What calls and continuations do to the connection manager *)

Lemma core_inv st c i g p w d S A T N :
  core st = (c, i, g, p, w, d, S, A, T, N) ->
  closed st = c /\ initTime st = i /\ config st = g /\
  connectingPromise st = p /\ ws st = w /\ currentRetryDelay st = d /\
  sockets st = S /\ attempts st = A /\ timeouts (log st) = T /\
  constructed (log st) = N.
Proof. unfold core. intros H. injection H. intros. repeat split; assumption. Qed.

Lemma timeouts_app l1 l2 : timeouts (l1 ++ l2) = timeouts l1 ++ timeouts l2.
Proof. apply omap_app. Qed.

Lemma constructed_app l1 l2 :
  constructed (l1 ++ l2) = constructed l1 ++ constructed l2.
Proof. apply omap_app. Qed.

Lemma core_connect_new d r st :
  closed st = false -> connectingPromise st = None ->
  core (snd (connect d r st)) =
  (false, initTime st, config st, Some (length (attempts st)), ws st,
   currentRetryDelay st, sockets st,
   attempts st ++ [mkAttempt r false Sleeping Pending],
   timeouts (log st) ++ [d], constructed (log st)).
Proof.
  intros Hc Hp. unfold connect. rewrite Hc, Hp. unfold core. simpl.
  rewrite timeouts_app, constructed_app. simpl. by rewrite Hc, app_nil_r.
Qed.

Lemma connect_closed d r st :
  closed st = true -> connect d r st = (Settled_err ClosedError, st).
Proof. unfold connect. by intros ->. Qed.

Lemma connect_shared d r st a :
  closed st = false -> connectingPromise st = Some a ->
  connect d r st = (Pending_on a, st).
Proof. unfold connect. by intros -> ->. Qed.

Lemma core_connect d r st st' :
  core st' = core st -> core (snd (connect d r st')) = core (snd (connect d r st)).
Proof.
  intros H. destruct (core_inv _ _ _ _ _ _ _ _ _ _ _ H)
    as (Hc & Hi & Hg & Hp & Hw & Hd & Hs & Ha & Ht & Hn).
  destruct (closed st) eqn:Ec.
  { by rewrite !connect_closed. }
  destruct (connectingPromise st) eqn:Ep.
  { by rewrite !(connect_shared _ _ _ n). }
  rewrite !core_connect_new by done. congruence.
Qed.

Lemma connect_idem d r d' r' st :
  snd (connect d' r' (snd (connect d r st))) = snd (connect d r st).
Proof.
  unfold connect. destruct (closed st) eqn:Hc; simpl; [by rewrite Hc|].
  destruct (connectingPromise st) eqn:Hp; simpl; [by rewrite Hc, Hp|].
  by rewrite Hc.
Qed.

Lemma calm_refl st : calm st st.
Proof. by left. Qed.

Lemma calm_core st st1 st2 : core st1 = core st -> calm st1 st2 -> calm st st2.
Proof.
  intros H [H2|H2]; [left|right]; rewrite H2; [done|]. by apply core_connect.
Qed.

Lemma calm_trans st st1 st2 : calm st st1 -> calm st1 st2 -> calm st st2.
Proof.
  intros [H1|H1] H2; [by eapply calm_core|].
  destruct H2 as [H2|H2]; right; rewrite H2; [done|].
  rewrite (core_connect _ _ _ _ H1). by rewrite connect_idem.
Qed.

Lemma calm_step st st' : core st' = core st -> calm st st'.
Proof. by left. Qed.

Lemma core_registerHandler c f st : core (registerHandler c f st) = core st.
Proof. unfold registerHandler. by destruct (handler st !! c). Qed.

Lemma core_unregisterHandler c f st : core (unregisterHandler c f st) = core st.
Proof. unfold unregisterHandler. by destruct (handler st !! c). Qed.

Lemma core_emit e st : silent e = true -> core (emit e st) = core st.
Proof.
  intros H. unfold core, emit. simpl. rewrite timeouts_app, constructed_app.
  destruct e; try done; simpl; by rewrite !app_nil_r.
Qed.

Lemma core_await r t st : core (await r t st) = core st.
Proof.
  unfold await. destruct r as [|e|a]; [done|by apply core_emit|].
  destruct (promise_of a st) as [[]|]; try done. by apply core_emit.
Qed.

Lemma core_handleMessage c p st : core (handleMessage c p st) = core st.
Proof.
  unfold handleMessage. destruct (handler st !! c) as [l|]; [|done].
  revert st. induction l as [|h l IH]; intros st; simpl; [done|].
  rewrite IH. by apply core_emit.
Qed.

Lemma calm_lazyInit st : calm st (snd (lazyInit st)).
Proof.
  unfold lazyInit. destruct (ws st); [by left|].
  destruct (connectingPromise st); [by left|]. by right.
Qed.

Lemma calm_awaiting_init t k st :
  calm st (let '(r, st1) := lazyInit st in await r (mkTask t k) st1).
Proof.
  pose proof (calm_lazyInit st) as H.
  destruct (lazyInit st) as [r st1]. simpl in H.
  eapply calm_trans; [exact H|]. apply calm_step, core_await.
Qed.

Lemma calm_send t c p ty k st : calm st (send t c p ty k st).
Proof. apply calm_awaiting_init. Qed.

Lemma calm_reconnect_loop t arr idx st : calm st (reconnect_loop t arr idx st).
Proof.
  unfold reconnect_loop. case_match; [apply calm_send|].
  by apply calm_step, core_emit.
Qed.

Lemma calm_handleReconnect st : calm st (handleReconnect st).
Proof.
  unfold handleReconnect. eapply calm_core; [|apply calm_reconnect_loop]. done.
Qed.

Lemma calm_after_send t k st : calm st (after_send t k st).
Proof.
  destruct k; simpl; try apply calm_reconnect_loop;
    apply calm_step; rewrite core_emit by done; done.
Qed.

Lemma calm_resume t st : task_cont t <> K_close -> calm st (resume t st).
Proof.
  intros Hk. unfold resume.
  destruct (task_cont t) as [c fn|c fn|c|e k|e k|k|]; try done.
  - case_match.
    + apply calm_step. rewrite core_emit by done.
      destruct fn; [apply core_registerHandler|done].
    + eapply calm_core; [|apply calm_send].
      destruct fn; [apply core_registerHandler|done].
  - case_match.
    + apply calm_step. rewrite core_emit by done.
      destruct fn; [apply core_unregisterHandler|done].
    + eapply calm_core; [|apply calm_send].
      destruct fn; [apply core_unregisterHandler|done].
  - eapply calm_core; [|apply calm_send]. done.
  - apply calm_step. case_match; [|by apply core_emit].
    change (core (emit (WsSend n e) st) = core st). by apply core_emit.
  - apply calm_step. destruct k; try done; by apply core_emit.
  - apply calm_after_send.
Qed.

Lemma calm_call op st : op <> Close -> calm st (call op st).
Proof.
  intros Hop. unfold call. destruct op; try done;
    (eapply calm_core; [|apply calm_awaiting_init]; done).
Qed.

(** With a transport at hand nothing is started. *)
Lemma core_awaiting_init_connected t k st s :
  ws st = Some s ->
  core (let '(r, st1) := lazyInit st in await r (mkTask t k) st1) = core st.
Proof. intros H. rewrite (lazyInit_connected _ _ H). apply core_await. Qed.

Lemma core_handleReconnect st s :
  ws st = Some s -> core (handleReconnect st) = core st.
Proof.
  intros H. unfold handleReconnect, reconnect_loop.
  case_match; [|by rewrite core_emit].
  unfold send. by rewrite (core_awaiting_init_connected _ _ _ s).
Qed.

(** ** Single flight: the invariant and the updates that keep it *)

Lemma sf_sockets p A S S' : sockets_le S' S -> sf p A S -> sf p A S'.
Proof.
  intros Hle [H1 H2 H3 H4 H5]. split; try done.
  intros s k' a Hk' Hc. destruct (Hle _ _ _ Hk' Hc) as (k & Hk & Hc').
  by eapply H5.
Qed.

Lemma sockets_le_alter (f : Socket -> Socket) s S :
  (forall k a, calls (f k) a -> calls k a) -> sockets_le (alter f s S) S.
Proof.
  intros Hf s' k' a Hk' Hc. destruct (decide (s = s')) as [->|Hne].
  - rewrite list_lookup_alter_eq in Hk'.
    destruct (S !! s') as [k|] eqn:Hk; [|done]. simpl in Hk'.
    injection Hk' as <-. exists k. split; [done|]. by apply Hf.
  - rewrite list_lookup_alter_ne in Hk' by done. exists k'; split; done.
Qed.

Lemma sockets_le_insert s k k' S :
  S !! s = Some k -> (forall a, calls k' a -> calls k a) ->
  sockets_le (<[s := k']> S) S.
Proof.
  intros Hk Hf s' k'' a Hk'' Hc. destruct (decide (s = s')) as [->|Hne].
  - rewrite list_lookup_insert_eq in Hk'' by (by eapply lookup_lt_Some).
    injection Hk'' as <-. exists k. split; [done|]. by apply Hf.
  - rewrite list_lookup_insert_ne in Hk'' by done. exists k''; split; done.
Qed.

Lemma sockets_le_fresh S r : sockets_le (S ++ [mkSocket r None None false false]) S.
Proof.
  intros s k' a Hk' Hc. apply lookup_app_Some in Hk' as [Hk'|[_ Hk']].
  - exists k'; split; done.
  - apply list_lookup_singleton_Some in Hk' as [_ <-].
    destruct Hc as [_ [Hc|Hc]]; done.
Qed.

Lemma sf_connect r A S :
  sf None A S ->
  sf (Some (length A)) (A ++ [mkAttempt r false Sleeping Pending]) S.
Proof.
  intros [H1 H2 H3 H4 H5]. split.
  - intros a x Hx Hp. apply lookup_app_Some in Hx as [Hx|[Hl Hx]].
    + by specialize (H1 _ _ Hx Hp).
    + apply list_lookup_singleton_Some in Hx as [Hx _]. f_equal. lia.
  - intros a [= <-]. exists (mkAttempt r false Sleeping Pending).
    split; [|done]. rewrite lookup_app_r by done. by rewrite Nat.sub_diag.
  - intros a x Hx Hp. apply lookup_app_Some in Hx as [Hx|[Hl Hx]].
    + by eapply H3.
    + apply list_lookup_singleton_Some in Hx as [_ <-]. done.
  - intros a x Hx Hp. apply lookup_app_Some in Hx as [Hx|[Hl Hx]].
    + by eapply H4.
    + apply list_lookup_singleton_Some in Hx as [_ <-]. done.
  - intros s k a Hk Hc. destruct (H5 _ _ _ Hk Hc) as (x & Hx & Hp).
    exists x. split; [|done]. by apply lookup_app_l_Some.
Qed.

Lemma settle_pending p a A x :
  A !! a = Some x -> att_promise x = Pending ->
  settle p a A = <[a := set_promise p x]> A.
Proof. intros Hx Hp. unfold settle. by rewrite Hx, Hp. Qed.

Lemma settle_settled p a A x :
  A !! a = Some x -> att_promise x <> Pending -> settle p a A = A.
Proof. intros Hx Hp. unfold settle. rewrite Hx. by destruct (att_promise x). Qed.

(** The branch of [runOnSuccess] that runs: the attempt is marked done
    and its promise fulfilled. *)
Lemma sf_fulfil p A S a x s :
  sf p A S -> A !! a = Some x -> att_promise x = Pending ->
  att_phase x = Wired s ->
  sf None (settle Fulfilled a (<[a := set_promiseDone true x]> A)) S.
Proof.
  intros [H1 H2 H3 H4 H5] Hx Hp Hw.
  assert (Hlt : (a < length A)%nat) by (by eapply lookup_lt_Some).
  rewrite (settle_pending _ _ _ (set_promiseDone true x))
    by (by rewrite ?list_lookup_insert_eq).
  rewrite list_insert_insert_eq.
  assert (Hother : forall b y,
    <[a := set_promise Fulfilled (set_promiseDone true x)]> A !! b = Some y ->
    b <> a -> A !! b = Some y).
  { intros b y Hy Hne. by rewrite list_lookup_insert_ne in Hy. }
  assert (Hself : forall y,
    <[a := set_promise Fulfilled (set_promiseDone true x)]> A !! a = Some y ->
    y = set_promise Fulfilled (set_promiseDone true x)).
  { intros y Hy. rewrite list_lookup_insert_eq in Hy by done. congruence. }
  split.
  - intros b y Hy Hpy. destruct (decide (b = a)) as [->|Hne].
    + apply Hself in Hy. by subst y.
    + apply Hother in Hy; [|done].
      pose proof (H1 _ _ Hy Hpy). pose proof (H1 _ _ Hx Hp). congruence.
  - done.
  - intros b y Hy Hpy. destruct (decide (b = a)) as [->|Hne].
    + apply Hself in Hy. by subst y.
    + eapply H3; [by eapply Hother|done].
  - intros b y Hy Hu. destruct (decide (b = a)) as [->|Hne].
    + apply Hself in Hy. subst y. simpl in Hu. by destruct (Hu s).
    + eapply H4; [by eapply Hother|done].
  - intros s' k b Hk Hc. destruct (H5 _ _ _ Hk Hc) as (y & Hy & Hf & Hph).
    destruct (decide (b = a)) as [->|Hne].
    + eexists. split; [by apply list_lookup_insert_eq|].
      simpl. split; [done|]. congruence.
    + exists y. by rewrite list_lookup_insert_ne.
Qed.

(** The branch of [onerror] that runs, on a socket that is closed by
    then: the promise is rejected. *)
Lemma sf_reject p A S a x s k :
  sf p A S -> A !! a = Some x -> att_promise x = Pending ->
  att_phase x = Wired s -> S !! s = Some k -> readyState k = CLOSED ->
  sf None (settle Failed a A) S.
Proof.
  intros [H1 H2 H3 H4 H5] Hx Hp Hw Hk Hcl.
  assert (Hlt : (a < length A)%nat) by (by eapply lookup_lt_Some).
  rewrite (settle_pending _ _ _ x) by done.
  assert (Hother : forall b y,
    <[a := set_promise Failed x]> A !! b = Some y -> b <> a -> A !! b = Some y).
  { intros b y Hy Hne. by rewrite list_lookup_insert_ne in Hy. }
  assert (Hself : forall y,
    <[a := set_promise Failed x]> A !! a = Some y -> y = set_promise Failed x).
  { intros y Hy. rewrite list_lookup_insert_eq in Hy by done. congruence. }
  split.
  - intros b y Hy Hpy. destruct (decide (b = a)) as [->|Hne].
    + apply Hself in Hy. by subst y.
    + apply Hother in Hy; [|done].
      pose proof (H1 _ _ Hy Hpy). pose proof (H1 _ _ Hx Hp). congruence.
  - done.
  - intros b y Hy Hpy. destruct (decide (b = a)) as [->|Hne].
    + apply Hself in Hy. by subst y.
    + eapply H3; [by eapply Hother|done].
  - intros b y Hy Hu. destruct (decide (b = a)) as [->|Hne].
    + apply Hself in Hy. subst y. simpl in Hu. by destruct (Hu s).
    + eapply H4; [by eapply Hother|done].
  - intros s' k' b Hk' Hc. destruct (H5 _ _ _ Hk' Hc) as (y & Hy & Hf & Hph).
    destruct (decide (b = a)) as [->|Hne].
    + assert (s' = s) as -> by congruence.
      destruct Hc as [Hc _]. congruence.
    + exists y. by rewrite list_lookup_insert_ne.
Qed.

(** The executor picks its socket and installs [onerror], and [onopen]
    unless the socket is open already. *)
Lemma sf_wire p A S a x s k k' :
  sf p A S -> A !! a = Some x -> att_phase x = Sleeping -> S !! s = Some k ->
  readyState k' = readyState k -> onerror k' = Some a ->
  (onopen k' = Some a \/ onopen k' = onopen k) ->
  sf p (<[a := set_phase (Wired s) x]> A) (<[s := k']> S).
Proof.
  intros [H1 H2 H3 H4 H5] Hx Hph Hk Hr He Ho.
  assert (Hlt : (a < length A)%nat) by (by eapply lookup_lt_Some).
  assert (Hother : forall b y,
    <[a := set_phase (Wired s) x]> A !! b = Some y -> b <> a -> A !! b = Some y).
  { intros b y Hy Hne. by rewrite list_lookup_insert_ne in Hy. }
  assert (Hself : forall y,
    <[a := set_phase (Wired s) x]> A !! a = Some y -> y = set_phase (Wired s) x).
  { intros y Hy. rewrite list_lookup_insert_eq in Hy by done. congruence. }
  destruct (H4 _ _ Hx) as [Hpx Hdx]; [by rewrite Hph|].
  assert (Hnot : forall s0 k0, S !! s0 = Some k0 -> ~ calls k0 a).
  { intros s0 k0 Hk0 Hc. destruct (H5 _ _ _ Hk0 Hc) as (y & Hy & _ & Hw).
    congruence. }
  split.
  - intros b y Hy Hpy. destruct (decide (b = a)) as [->|Hne].
    + apply Hself in Hy. subst y. by eapply H1.
    + eapply H1; [by eapply Hother|done].
  - intros b Hb. destruct (H2 _ Hb) as (y & Hy & Hpy).
    destruct (decide (b = a)) as [->|Hne].
    + eexists. split; [by apply list_lookup_insert_eq|]. simpl. congruence.
    + exists y. by rewrite list_lookup_insert_ne.
  - intros b y Hy Hpy. destruct (decide (b = a)) as [->|Hne].
    + apply Hself in Hy. subst y. simpl in *. congruence.
    + eapply H3; [by eapply Hother|done].
  - intros b y Hy Hu. destruct (decide (b = a)) as [->|Hne].
    + apply Hself in Hy. subst y. simpl in Hu. by destruct (Hu s).
    + eapply H4; [by eapply Hother|done].
  - intros s' k0 b Hk0 Hc. destruct (decide (s' = s)) as [->|Hns].
    + rewrite list_lookup_insert_eq in Hk0 by (by eapply lookup_lt_Some).
      injection Hk0 as <-.
      destruct (decide (b = a)) as [->|Hne].
      * eexists. split; [by apply list_lookup_insert_eq|]. simpl.
        split; [congruence|done].
      * assert (calls k b) as Hcb.
        { destruct Hc as [Hc1 Hc2]. split; [congruence|].
          destruct Hc2 as [Hc2|Hc2]; [congruence|].
          destruct Ho as [Ho|Ho]; [congruence|]. right. congruence. }
        destruct (H5 _ _ _ Hk Hcb) as (y & Hy & Hf & Hw).
        exists y. by rewrite list_lookup_insert_ne.
    + rewrite list_lookup_insert_ne in Hk0 by done.
      destruct (H5 _ _ _ Hk0 Hc) as (y & Hy & Hf & Hw).
      assert (b <> a) by (intros ->; by eapply Hnot).
      exists y. by rewrite list_lookup_insert_ne.
Qed.

(** [new WebSocket(undefined)] raises: the attempt stays pending. *)
Lemma sf_threw p A S a x :
  sf p A S -> A !! a = Some x -> att_phase x = Sleeping ->
  sf p (<[a := set_phase Threw x]> A) S.
Proof.
  intros [H1 H2 H3 H4 H5] Hx Hph.
  assert (Hlt : (a < length A)%nat) by (by eapply lookup_lt_Some).
  assert (Hother : forall b y,
    <[a := set_phase Threw x]> A !! b = Some y -> b <> a -> A !! b = Some y).
  { intros b y Hy Hne. by rewrite list_lookup_insert_ne in Hy. }
  assert (Hself : forall y,
    <[a := set_phase Threw x]> A !! a = Some y -> y = set_phase Threw x).
  { intros y Hy. rewrite list_lookup_insert_eq in Hy by done. congruence. }
  destruct (H4 _ _ Hx) as [Hpx Hdx]; [by rewrite Hph|].
  split.
  - intros b y Hy Hpy. destruct (decide (b = a)) as [->|Hne].
    + apply Hself in Hy. subst y. by eapply H1.
    + eapply H1; [by eapply Hother|done].
  - intros b Hb. destruct (H2 _ Hb) as (y & Hy & Hpy).
    destruct (decide (b = a)) as [->|Hne].
    + eexists. split; [by apply list_lookup_insert_eq|]. simpl. congruence.
    + exists y. by rewrite list_lookup_insert_ne.
  - intros b y Hy Hpy. destruct (decide (b = a)) as [->|Hne].
    + apply Hself in Hy. subst y. simpl in *. congruence.
    + eapply H3; [by eapply Hother|done].
  - intros b y Hy Hu. destruct (decide (b = a)) as [->|Hne].
    + apply Hself in Hy. by subst y.
    + eapply H4; [by eapply Hother|done].
  - intros s' k0 b Hk0 Hc. destruct (H5 _ _ _ Hk0 Hc) as (y & Hy & Hf & Hw).
    assert (b <> a) by (intros ->; congruence).
    exists y. by rewrite list_lookup_insert_ne.
Qed.

(** ** What the browser's callbacks do to the connection manager *)

Lemma timeouts_rejected (l : list Task) r :
  timeouts ((fun t => Rejected (task_id t) r) <$> l) = [].
Proof. by induction l. Qed.

Lemma constructed_rejected (l : list Task) r :
  constructed ((fun t => Rejected (task_id t) r) <$> l) = [].
Proof. by induction l. Qed.

Lemma core_res a st :
  core (res a st) =
  (closed st, initTime st, config st, connectingPromise st, ws st,
   currentRetryDelay st, sockets st, settle Fulfilled a (attempts st),
   timeouts (log st), constructed (log st)).
Proof.
  unfold res, settle. destruct (attempts st !! a) as [x|]; [|done].
  by destruct (att_promise x).
Qed.

Lemma core_rej a st :
  core (rej a st) =
  (closed st, initTime st, config st, connectingPromise st, ws st,
   currentRetryDelay st, sockets st, settle Failed a (attempts st),
   timeouts (log st), constructed (log st)).
Proof.
  unfold rej, settle. destruct (attempts st !! a) as [x|]; [|done].
  destruct (att_promise x); try done.
  unfold core. simpl. rewrite timeouts_app, constructed_app.
  by rewrite timeouts_rejected, constructed_rejected, !app_nil_r.
Qed.

(** [runOnSuccess], when it runs. *)
Lemma core_runOnSuccess a st x s :
  attempts st !! a = Some x -> att_promiseDone x = false ->
  att_phase x = Wired s ->
  core (runOnSuccess a st) =
  (closed st, initTime st, config st, None, Some s, 0,
   alter set_handlers s (sockets st),
   settle Fulfilled a (<[a := set_promiseDone true x]> (attempts st)),
   timeouts (log st), constructed (log st)).
Proof.
  intros Hx Hd Hw. unfold runOnSuccess. rewrite Hx, Hd, Hw. cbv zeta.
  match goal with
  | |- core (if _ then handleReconnect (res a ?z) else _) = _ =>
      pose proof (core_res a z) as Hres; transitivity (core (res a z))
  end.
  - destruct (att_isReconnect x); [|done].
    apply (core_handleReconnect _ s).
    by destruct (core_inv _ _ _ _ _ _ _ _ _ _ _ Hres) as (_&_&_&_&?&_).
  - rewrite Hres. simpl. unfold triggerConnectionStatusEvent, emit. simpl.
    rewrite timeouts_app, constructed_app. simpl. by rewrite !app_nil_r.
Qed.

(** [runOnSuccess], when it does nothing. *)
Lemma runOnSuccess_skip a st :
  match attempts st !! a with
  | Some x =>
      att_promiseDone x = true \/ forall s, att_phase x <> Wired s
  | None => True
  end ->
  runOnSuccess a st = st.
Proof.
  unfold runOnSuccess. destruct (attempts st !! a) as [x|]; [|done].
  intros [-> | H]; [done|]. destruct (att_promiseDone x); [done|].
  destruct (att_phase x) as [|s|]; try done. by destruct (H s).
Qed.

Lemma retryConnect_skip now st :
  closed st = true \/ too_old now st = true -> retryConnect now st = st.
Proof.
  unfold retryConnect, too_old. destruct (closed st); [done|].
  intros [? | ->]; done.
Qed.

Lemma retryConnect_go now st :
  closed st = false -> too_old now st = false ->
  retryConnect now st =
  snd (connect (next_delay st) true (set_currentRetryDelay (next_delay st) st)).
Proof.
  unfold retryConnect, too_old. by intros -> ->.
Qed.

(** ** Single flight is kept by every event *)

Lemma sf_of_core st p A S c i g w d T N :
  core st = (c, i, g, p, w, d, S, A, T, N) -> sf p A S -> single_flight st.
Proof.
  intros H. destruct (core_inv _ _ _ _ _ _ _ _ _ _ _ H)
    as (_&_&_&Hp&_&_&Hs&Ha&_). unfold single_flight. by rewrite Hp, Hs, Ha.
Qed.

Lemma single_flight_core st st' :
  core st' = core st -> single_flight st -> single_flight st'.
Proof. intros H. by apply (sf_of_core _ _ _ _ _ _ _ _ _ _ _ H). Qed.

Lemma single_flight_connect d r st :
  single_flight st -> single_flight (snd (connect d r st)).
Proof.
  intros H. destruct (closed st) eqn:Hc.
  { by rewrite connect_closed. }
  destruct (connectingPromise st) as [a|] eqn:Hp.
  { by rewrite (connect_shared _ _ _ a). }
  eapply sf_of_core; [by apply core_connect_new|].
  apply sf_connect. unfold single_flight in H. by rewrite Hp in H.
Qed.

Lemma single_flight_calm st st' :
  calm st st' -> single_flight st -> single_flight st'.
Proof.
  intros [H|H] Hsf; eapply single_flight_core; try exact H; [done|].
  by apply single_flight_connect.
Qed.

Lemma single_flight_retryConnect now st :
  single_flight st -> single_flight (retryConnect now st).
Proof.
  intros H. destruct (closed st) eqn:Hc.
  { rewrite retryConnect_skip; auto. }
  destruct (too_old now st) eqn:Ho.
  { rewrite retryConnect_skip; auto. }
  rewrite retryConnect_go by done. by apply single_flight_connect.
Qed.

(** A closure that can be called and has not marked its attempt done
    belongs to the pending attempt. *)
Lemma closure_pending st s k a :
  single_flight st -> sockets st !! s = Some k -> calls k a ->
  exists x, attempts st !! a = Some x /\ att_phase x = Wired s /\
            (att_promiseDone x = false -> att_promise x = Pending).
Proof.
  intros [H1 H2 H3 H4 H5] Hk Hc.
  destruct (H5 _ _ _ Hk Hc) as (x & Hx & Hf & Hw).
  exists x. repeat split; try done. intros Hd.
  destruct (att_promise x) eqn:Hp; try done.
  rewrite (H3 _ _ Hx Hp) in Hd. done.
Qed.

Lemma single_flight_runOnSuccess a st x :
  single_flight st -> attempts st !! a = Some x ->
  (att_promiseDone x = false -> att_promise x = Pending) ->
  single_flight (runOnSuccess a st).
Proof.
  intros H Hx Hp. destruct (att_promiseDone x) eqn:Hd.
  { rewrite runOnSuccess_skip; [done|]. rewrite Hx. by left. }
  destruct (att_phase x) as [|s|] eqn:Hw.
  1,3: rewrite runOnSuccess_skip; [done|]; rewrite Hx; right; congruence.
  eapply sf_of_core; [by eapply core_runOnSuccess|].
  eapply sf_sockets.
  - apply sockets_le_alter. by intros k b [? ?].
  - eapply sf_fulfil; eauto.
Qed.

Lemma single_flight_set_sockets S st :
  sockets_le S (sockets st) -> single_flight st ->
  single_flight (set_sockets S st).
Proof. intros Hle H. by eapply sf_sockets. Qed.

Lemma single_flight_onclose s now st :
  single_flight st -> single_flight (fire_onclose s now st).
Proof.
  intros H. unfold fire_onclose. destruct (sockets st !! s) as [k|]; [|done].
  destruct (onclose k); [|done]. by apply single_flight_retryConnect.
Qed.

Lemma single_flight_timer a st :
  single_flight st -> single_flight (timer_fired a st).
Proof.
  intros H. unfold timer_fired.
  destruct (attempts st !! a) as [x|] eqn:Hx; [|done].
  destruct (att_phase x) eqn:Hph; try done.
  assert (Hwire : forall st0 s, single_flight st0 ->
            attempts st0 !! a = Some x -> single_flight (wire a s st0)).
  { intros st0 s H0 Hx0. unfold wire. rewrite Hx0.
    destruct (sockets st0 !! s) as [k|] eqn:Hk; [|done].
    destruct (ReadyState_eqb (readyState k) OPEN).
    - eapply (single_flight_runOnSuccess _ _ (set_phase (Wired s) x)).
      + eapply sf_wire; eauto.
      + simpl. apply list_lookup_insert_eq. by eapply lookup_lt_Some.
      + intros _. simpl. destruct H0 as [_ _ _ H4 _].
        apply (H4 _ _ Hx0). by rewrite Hph.
    - eapply (sf_wire _ _ _ _ _ _ _ (set_onopen a (set_onerror a k)));
        eauto. }
  destruct (socket (config st)) as [s|]; [by apply Hwire|].
  destruct (url (config st)) as [u|].
  - apply Hwire.
    + eapply sf_sockets; [|exact H]. apply sockets_le_fresh.
    + done.
  - eapply sf_threw; eauto.
Qed.

Lemma single_flight_close_finish t st :
  single_flight st -> single_flight (close_finish t st).
Proof.
  intros H. unfold close_finish.
  eapply single_flight_core; [by apply core_emit|].
  destruct (ws st) as [s|]; [|done]. unfold ws_close.
  destruct (sockets st !! s) as [k|] eqn:Hk; [|done].
  eapply single_flight_core; [by apply core_emit|].
  destruct (readyState k) eqn:Hr; try done;
    (apply single_flight_set_sockets; [|done];
     eapply sockets_le_insert; [done|];
     intros a [_ Hc]; split; [congruence|done]).
Qed.

Lemma single_flight_resume t st :
  single_flight st -> single_flight (resume t st).
Proof.
  intros H. destruct (task_cont t) eqn:Hk.
  7: unfold resume; rewrite Hk; by apply single_flight_close_finish.
  all: eapply single_flight_calm; [apply calm_resume; by rewrite Hk|done].
Qed.

Lemma single_flight_call op st :
  single_flight st -> single_flight (call op st).
Proof.
  intros H. destruct op.
  5:{ unfold call, close. cbv zeta.
      change (connectingPromise (set_closed true _))
        with (connectingPromise st).
      destruct (connectingPromise st).
      - eapply single_flight_core; [apply core_await|]. exact H.
      - apply single_flight_close_finish. exact H. }
  all: by eapply single_flight_calm; [apply calm_call|].
Qed.

Lemma single_flight_closed_socket s k st :
  sockets st !! s = Some k -> single_flight st ->
  single_flight
    (set_sockets (<[s := set_readyState CLOSED k]> (sockets st)) st).
Proof.
  intros Hk. apply single_flight_set_sockets.
  eapply sockets_le_insert; [done|]. by intros a [Hc _].
Qed.

Theorem single_flight_step ev st :
  single_flight st -> single_flight (step ev st).
Proof.
  intros H. destruct ev as [op| |a|s|s now|s now|s c p]; simpl.
  - by apply single_flight_call.
  - destruct (ready st) as [|t r]; [done|]. by apply single_flight_resume.
  - by apply single_flight_timer.
  - destruct (sockets st !! s) as [k|] eqn:Hk; [|done].
    destruct (readyState k) eqn:Hr; try done.
    assert (single_flight
      (set_sockets (<[s := set_readyState OPEN k]> (sockets st)) st)) as H1.
    { apply single_flight_set_sockets; [|done].
      eapply sockets_le_insert; [done|].
      intros a [_ Hc]. split; [congruence|done]. }
    destruct (onopen k) as [a|] eqn:Ho; [|done].
    destruct (closure_pending _ _ _ a H Hk) as (x & Hx & _ & Hp).
    { split; [congruence|by right]. }
    by eapply single_flight_runOnSuccess.
  - destruct (sockets st !! s) as [k|] eqn:Hk; [|done].
    assert (readyState k <> CLOSED ->
      single_flight (fire_onclose s now
        match onerror k with
        | Some a =>
            socket_onerror a now
              (set_sockets (<[s := set_readyState CLOSED k]> (sockets st)) st)
        | None =>
            set_sockets (<[s := set_readyState CLOSED k]> (sockets st)) st
        end)) as Hgo.
    { intros Hr. apply single_flight_onclose.
      pose proof (single_flight_closed_socket _ _ _ Hk H) as H1.
      destruct (onerror k) as [a|] eqn:He; [|done].
      destruct (closure_pending _ _ _ a H Hk) as (x & Hx & Hw & Hp).
      { split; [done|by left]. }
      unfold socket_onerror. simpl. rewrite Hx.
      destruct (att_promiseDone x) eqn:Hd; [done|].
      apply single_flight_retryConnect.
      eapply sf_of_core; [apply core_rej|]. simpl.
      eapply (sf_reject _ _ _ _ x s (set_readyState CLOSED k)); eauto.
      apply list_lookup_insert_eq. by eapply lookup_lt_Some. }
    destruct (readyState k); try done; by apply Hgo.
  - destruct (sockets st !! s) as [k|] eqn:Hk; [|done].
    pose proof (single_flight_closed_socket _ _ _ Hk H) as H1.
    destruct (readyState k); try done; by apply single_flight_onclose.
  - destruct (sockets st !! s) as [k|]; [|done].
    destruct (readyState k); try done;
      (destruct (onmessage k); [|done];
       eapply single_flight_core; [apply core_handleMessage|done]).
Qed.

Lemma single_flight_new cfg now pre :
  single_flight (new_TubesClient cfg now pre).
Proof.
  unfold single_flight, new_TubesClient.
  cbn [connectingPromise attempts sockets]. split; try done.
  intros s k a Hk [_ Hc]. apply list_lookup_fmap_Some_1 in Hk as (r & -> & _).
  by destruct Hc.
Qed.

Lemma single_flight_run evs st :
  single_flight st -> single_flight (run evs st).
Proof.
  revert st. induction evs as [|ev evs IH]; intros st H; [done|].
  simpl. by apply IH, single_flight_step.
Qed.

(** ** What every event keeps: closedness, zero delays, no retry of an
    old client *)

Ltac lawful_split :=
  refine (conj _ (conj _ (conj _ (conj _ (conj _ _))))).

Lemma lawful_refl b st : lawful b st st.
Proof.
  lawful_split; try done.
  - intros _ H0. split; [done|]. exists 0%nat. by rewrite app_nil_r.
  - intros _. exists 0%nat. by rewrite app_nil_r.
Qed.

Lemma lawful_trans b st st1 st2 :
  lawful b st st1 -> lawful b st1 st2 -> lawful b st st2.
Proof.
  intros (Hg & Hi & Hc & Hp & Hd & Hf) (Hg' & Hi' & Hc' & Hp' & Hd' & Hf').
  lawful_split.
  - congruence.
  - congruence.
  - auto.
  - auto.
  - intros He H0. destruct (Hd He H0) as [H1 [k Hk]]. rewrite <- Hg in He.
    destruct (Hd' He H1) as [H2 [k' Hk']]. split; [done|].
    exists (k + k')%nat. by rewrite Hk', Hk, <- app_assoc, replicate_add.
  - intros Hb. destruct (Hf Hb) as [k Hk]. destruct (Hf' Hb) as [k' Hk'].
    exists (k + k')%nat. by rewrite Hk', Hk, <- app_assoc, replicate_add.
Qed.

Lemma lawful_weaken b st st' : lawful true st st' -> lawful b st st'.
Proof.
  intros (Hg & Hi & Hc & Hp & Hd & Hf). lawful_split; try done; by auto.
Qed.

Lemma retry_flags_core st st' :
  core st' = core st -> retry_flags st' = retry_flags st.
Proof.
  intros H. unfold retry_flags, core in *. congruence.
Qed.

Lemma lawful_core b st st' : core st' = core st -> lawful b st st'.
Proof.
  intros H. pose proof (retry_flags_core _ _ H) as Hfl.
  unfold core in H. injection H as Hc Hi Hg Hp Hw Hd Hs Ha Ht Hn.
  lawful_split; try congruence.
  - intros _ H0. split; [congruence|]. exists 0%nat. by rewrite app_nil_r.
  - intros _. exists 0%nat. by rewrite app_nil_r.
Qed.

Lemma lawful_core_r b st st' st'' :
  core st'' = core st' -> lawful b st st' -> lawful b st st''.
Proof.
  intros H H'. eapply lawful_trans; [exact H'|]. by apply lawful_core.
Qed.

Lemma lawful_connect b d r st :
  (truthy_bool (exponentialRetryBackoff (config st)) = true ->
   currentRetryDelay st = 0 -> d = 0) ->
  (b = true -> r = false) ->
  lawful b st (snd (connect d r st)).
Proof.
  intros Hd Hr. destruct (closed st) eqn:Hc.
  { rewrite connect_closed by done. apply lawful_refl. }
  destruct (connectingPromise st) as [a|] eqn:Hp.
  { rewrite (connect_shared _ _ _ a) by done. apply lawful_refl. }
  pose proof (core_connect_new d r st Hc Hp) as H.
  assert (retry_flags (snd (connect d r st)) = retry_flags st ++ [r]) as Hfl.
  { unfold retry_flags.
    destruct (core_inv _ _ _ _ _ _ _ _ _ _ _ H) as (_&_&_&_&_&_&_&->&_).
    by rewrite fmap_app. }
  apply core_inv in H as (Hc' & Hi & Hg & Hp' & Hw & Hd' & Hs & Ha & Ht & Hn).
  lawful_split; try congruence.
  - intros He H0. split; [congruence|]. exists 1%nat. rewrite Ht. simpl.
    by rewrite Hd.
  - intros ->. exists 1%nat. rewrite Hfl. by rewrite Hr.
Qed.

Lemma lawful_calm b st st' : calm st st' -> lawful b st st'.
Proof.
  intros [H|H]; [by apply lawful_core|].
  eapply lawful_core_r; [exact H|]. by apply lawful_connect.
Qed.

Lemma lawful_retryConnect now st :
  lawful (too_old now st) st (retryConnect now st).
Proof.
  destruct (closed st) eqn:Hc.
  { rewrite retryConnect_skip by auto. apply lawful_refl. }
  destruct (too_old now st) eqn:Ho.
  { rewrite retryConnect_skip by auto. apply lawful_refl. }
  rewrite retryConnect_go by done.
  eapply lawful_trans; [|apply lawful_connect; [|done]].
  - lawful_split; try done.
    intros He H0. simpl. unfold next_delay. rewrite He, H0.
    split; [done|]. exists 0%nat. by rewrite app_nil_r.
  - intros _ H0. exact H0.
Qed.

Lemma retry_flags_insert (A : list Attempt) a x y :
  A !! a = Some x -> att_isReconnect y = att_isReconnect x ->
  att_isReconnect <$> <[a := y]> A = att_isReconnect <$> A.
Proof.
  intros Hx Hy. rewrite list_fmap_insert, Hy.
  apply list_insert_id. by rewrite list_lookup_fmap, Hx.
Qed.

Lemma retry_flags_settle p a A :
  att_isReconnect <$> settle p a A = att_isReconnect <$> A.
Proof.
  unfold settle. destruct (A !! a) as [x|] eqn:Hx; [|done].
  destruct (att_promise x); try done. by apply (retry_flags_insert _ _ x).
Qed.

(** A step that leaves the configuration, the clock base and the
    closed flag alone, does not set the promise slot, leaves the delay
    at zero or as it is, sets no timer and keeps the list of retry flags
    is lawful. *)
Lemma lawful_quiet b st st' c i g p w d S A T N :
  core st' = (c, i, g, p, w, d, S, A, T, N) ->
  c = closed st -> i = initTime st -> g = config st ->
  (p = None \/ p = connectingPromise st) ->
  (d = 0 \/ d = currentRetryDelay st) -> T = timeouts (log st) ->
  att_isReconnect <$> A = retry_flags st ->
  lawful b st st'.
Proof.
  intros H -> -> -> Hp Hd -> Hfl.
  apply core_inv in H as (Hc' & Hi & Hg & Hp' & Hw & Hd' & Hs & Ha & Ht & Hn).
  lawful_split; try congruence.
  - intros _ H0. destruct Hp; congruence.
  - intros _ H0. split; [destruct Hd; congruence|].
    exists 0%nat. by rewrite app_nil_r.
  - intros _. exists 0%nat. unfold retry_flags at 1.
    by rewrite Ha, Hfl, app_nil_r.
Qed.

Lemma lawful_res b a st : lawful b st (res a st).
Proof.
  eapply lawful_quiet; [apply core_res|..]; auto using retry_flags_settle.
Qed.

Lemma lawful_rej b a st : lawful b st (rej a st).
Proof.
  eapply lawful_quiet; [apply core_rej|..]; auto using retry_flags_settle.
Qed.

Lemma lawful_runOnSuccess b a st : lawful b st (runOnSuccess a st).
Proof.
  destruct (attempts st !! a) as [x|] eqn:Hx.
  2:{ rewrite runOnSuccess_skip; [apply lawful_refl|by rewrite Hx]. }
  destruct (att_promiseDone x) eqn:Hd.
  { rewrite runOnSuccess_skip; [apply lawful_refl|rewrite Hx; by left]. }
  destruct (att_phase x) as [|s|] eqn:Hw.
  1,3: rewrite runOnSuccess_skip;
    [apply lawful_refl|rewrite Hx; right; congruence].
  eapply lawful_quiet; [by eapply core_runOnSuccess|..]; auto.
  rewrite retry_flags_settle. by apply (retry_flags_insert _ _ x).
Qed.

Lemma lawful_set_sockets b S st : lawful b st (set_sockets S st).
Proof. eapply lawful_quiet; [reflexivity|..]; auto. Qed.

Lemma too_old_lawful b now st st' :
  lawful b st st' -> too_old now st' = too_old now st.
Proof. intros (Hg & Hi & _). unfold too_old. by rewrite Hg, Hi. Qed.

Lemma lawful_onerror a now st :
  lawful (too_old now st) st (socket_onerror a now st).
Proof.
  unfold socket_onerror. destruct (attempts st !! a) as [x|]; [|apply lawful_refl].
  destruct (att_promiseDone x); [apply lawful_refl|].
  assert (lawful (too_old now st) st (rej a (set_connectingPromise None st))) as H.
  { eapply lawful_trans; [|apply lawful_rej].
    eapply lawful_quiet; [reflexivity|..]; auto. }
  eapply lawful_trans; [exact H|].
  rewrite <- (too_old_lawful _ now _ _ H). apply lawful_retryConnect.
Qed.

Lemma lawful_onclose s now st :
  lawful (too_old now st) st (fire_onclose s now st).
Proof.
  unfold fire_onclose. destruct (sockets st !! s) as [k|]; [|apply lawful_refl].
  destruct (onclose k); [|apply lawful_refl]. unfold socket_onclose.
  assert (lawful (too_old now st) st
            (set_ws None (triggerConnectionStatusEvent false st))) as H.
  { eapply lawful_quiet; [reflexivity|..]; auto. simpl.
    rewrite timeouts_app. simpl. by rewrite app_nil_r. }
  eapply lawful_trans; [exact H|].
  rewrite <- (too_old_lawful _ now _ _ H). apply lawful_retryConnect.
Qed.

Lemma lawful_timer b a st : lawful b st (timer_fired a st).
Proof.
  unfold timer_fired. destruct (attempts st !! a) as [x|] eqn:Hx;
    [|apply lawful_refl].
  destruct (att_phase x) eqn:Hph; try apply lawful_refl.
  assert (Hwire : forall st0 s, attempts st0 !! a = Some x ->
            lawful b st0 (wire a s st0)).
  { intros st0 s Hx0. unfold wire. rewrite Hx0.
    destruct (sockets st0 !! s) as [k|] eqn:Hk; [|apply lawful_refl].
    assert (lawful b st0
      (set_sockets (<[s:=set_onerror a k]> (sockets st0))
         (set_attempts (<[a:=set_phase (Wired s) x]> (attempts st0)) st0)))
      as H.
    { eapply lawful_quiet; [reflexivity|..]; auto.
      by apply (retry_flags_insert _ _ x). }
    destruct (ReadyState_eqb (readyState k) OPEN).
    - eapply lawful_trans; [exact H|apply lawful_runOnSuccess].
    - eapply lawful_trans; [exact H|apply lawful_set_sockets]. }
  destruct (socket (config st)) as [s|]; [by apply Hwire|].
  destruct (url (config st)) as [u|].
  - eapply lawful_trans; [|apply Hwire; done].
    eapply lawful_quiet; [reflexivity|..]; auto. simpl.
    rewrite timeouts_app. simpl. by rewrite app_nil_r.
  - eapply lawful_quiet; [reflexivity|..]; auto.
    by apply (retry_flags_insert _ _ x).
Qed.

Lemma lawful_close_finish b t st : lawful b st (close_finish t st).
Proof.
  unfold close_finish. eapply lawful_core_r; [by apply core_emit|].
  destruct (ws st) as [s|]; [|apply lawful_refl]. unfold ws_close.
  destruct (sockets st !! s) as [k|]; [|apply lawful_refl].
  eapply lawful_core_r; [by apply core_emit|].
  destruct (readyState k); try apply lawful_refl; apply lawful_set_sockets.
Qed.

Lemma lawful_resume b t st : lawful b st (resume t st).
Proof.
  destruct (task_cont t) eqn:Hk.
  7: unfold resume; rewrite Hk; by apply lawful_close_finish.
  all: apply lawful_calm, calm_resume; by rewrite Hk.
Qed.

Lemma lawful_call b op st : lawful b st (call op st).
Proof.
  destruct op.
  5:{ unfold call, close. cbv zeta.
      change (connectingPromise (set_closed true _))
        with (connectingPromise st).
      assert (lawful b st (set_closed true (set_next_task (S (next_task st)) st)))
        as H.
      { lawful_split; try done.
        - intros _ H0. split; [done|]. exists 0%nat. by rewrite app_nil_r.
        - intros _. exists 0%nat. by rewrite app_nil_r. }
      destruct (connectingPromise st).
      - eapply lawful_core_r; [apply core_await|]. exact H.
      - eapply lawful_trans; [exact H|apply lawful_close_finish]. }
  all: by apply lawful_calm, calm_call.
Qed.

Theorem lawful_step ev st : lawful (old_at st ev) st (step ev st).
Proof.
  destruct ev as [op| |a|s|s now|s now|s c p]; unfold old_at; simpl.
  - apply lawful_call.
  - destruct (ready st) as [|t r]; [apply lawful_refl|].
    eapply lawful_trans; [|apply lawful_resume].
    by apply lawful_core.
  - apply lawful_timer.
  - destruct (sockets st !! s) as [k|]; [|apply lawful_refl].
    destruct (readyState k); try apply lawful_refl.
    destruct (onopen k).
    + eapply lawful_trans; [apply lawful_set_sockets|apply lawful_runOnSuccess].
    + apply lawful_set_sockets.
  - destruct (sockets st !! s) as [k|]; [|apply lawful_refl].
    assert (forall st1, lawful (too_old now st) st st1 ->
      lawful (too_old now st) st
        (fire_onclose s now
           match onerror k with
           | Some a => socket_onerror a now st1
           | None => st1
           end)) as Hgo.
    { intros st1 H1.
      assert (lawful (too_old now st) st
        match onerror k with
        | Some a => socket_onerror a now st1
        | None => st1
        end) as H2.
      { destruct (onerror k); [|done]. eapply lawful_trans; [exact H1|].
        rewrite <- (too_old_lawful _ now _ _ H1). apply lawful_onerror. }
      eapply lawful_trans; [exact H2|].
      rewrite <- (too_old_lawful _ now _ _ H2). apply lawful_onclose. }
    destruct (readyState k); try apply lawful_refl;
      apply Hgo, lawful_set_sockets.
  - destruct (sockets st !! s) as [k|]; [|apply lawful_refl].
    assert (lawful (too_old now st) st
      (fire_onclose s now
         (set_sockets (<[s:=set_readyState CLOSED k]> (sockets st)) st))) as Hgo.
    { eapply lawful_trans; [apply lawful_set_sockets|].
      rewrite <- (too_old_lawful _ now _ _
        (lawful_set_sockets true (<[s:=set_readyState CLOSED k]> (sockets st)) st)).
      apply lawful_onclose. }
    destruct (readyState k); try apply lawful_refl; apply Hgo.
  - destruct (sockets st !! s) as [k|]; [|apply lawful_refl].
    destruct (readyState k); try apply lawful_refl;
      (destruct (onmessage k); [|apply lawful_refl];
       apply lawful_core, core_handleMessage).
Qed.

(** ** A closed client: the promise slot only empties *)

Lemma run_app evs evs' st : run (evs ++ evs') st = run evs' (run evs st).
Proof. apply foldl_app. Qed.

Lemma shut_refl st : shut st st.
Proof. intros Hc. split; [done|]. right. by split. Qed.

Lemma shut_trans st st1 st2 : shut st st1 -> shut st1 st2 -> shut st st2.
Proof.
  intros H1 H2 Hc. destruct (H1 Hc) as [Hc1 Hp1].
  destruct (H2 Hc1) as [Hc2 Hp2]. split; [done|].
  destruct Hp2 as [Hp2|[Hp2 Hw2]]; [by left|].
  destruct Hp1 as [Hp1|[Hp1 Hw1]]; [left; congruence|].
  right. split; [congruence|]. auto.
Qed.

(** Updates of other fields. *)
Lemma shut_same st st' :
  closed st' = closed st -> connectingPromise st' = connectingPromise st ->
  waiting st' = waiting st -> shut st st'.
Proof.
  intros Hc Hp Hw H. split; [congruence|]. right. split; [done|].
  by rewrite Hw.
Qed.

Lemma shut_emit e st : shut st (emit e st).
Proof. by apply shut_same. Qed.

Lemma shut_registerHandler c f st : shut st (registerHandler c f st).
Proof.
  unfold registerHandler. destruct (handler st !! c); by apply shut_same.
Qed.

Lemma shut_unregisterHandler c f st : shut st (unregisterHandler c f st).
Proof.
  unfold unregisterHandler. destruct (handler st !! c); by apply shut_same.
Qed.

Lemma shut_await r t st : shut st (await r t st).
Proof.
  assert (shut st (set_waiting (waiting st ++ [(match r with
            | Pending_on a => a | _ => 0%nat end, t)]) st)) as H.
  { intros Hc. split; [done|]. right. split; [done|].
    intros w Hw. cbn. apply elem_of_app. by left. }
  unfold await. destruct r as [|e|a]; try by apply shut_same.
  destruct (promise_of a st) as [[]|]; try done; by apply shut_same.
Qed.

Lemma lazyInit_closed st : closed st = true -> snd (lazyInit st) = st.
Proof.
  intros Hc. unfold lazyInit. destruct (ws st); [done|].
  destruct (connectingPromise st); [done|]. by rewrite connect_closed.
Qed.

Lemma shut_awaiting_init t k st :
  shut st (let '(r, st1) := lazyInit st in await r (mkTask t k) st1).
Proof.
  intros Hc. pose proof (lazyInit_closed st Hc) as H.
  destruct (lazyInit st) as [r st1]. simpl in H. subst st1.
  by apply shut_await.
Qed.

Lemma shut_reconnect_loop t arr idx st : shut st (reconnect_loop t arr idx st).
Proof.
  unfold reconnect_loop. case_match; [apply shut_awaiting_init|apply shut_emit].
Qed.

Lemma shut_close_finish t st : shut st (close_finish t st).
Proof.
  unfold close_finish. eapply shut_trans; [|apply shut_emit].
  destruct (ws st) as [s|]; [|apply shut_refl]. unfold ws_close.
  destruct (sockets st !! s) as [k|]; [|apply shut_refl].
  eapply shut_trans; [|apply shut_emit].
  destruct (readyState k); by apply shut_same.
Qed.

Lemma shut_resume t st : shut st (resume t st).
Proof.
  unfold resume. destruct (task_cont t) as [c fn|c fn|c|e k|e k|k|].
  - case_match.
    + eapply shut_trans; [|apply shut_emit].
      destruct fn; [apply shut_registerHandler|apply shut_refl].
    + eapply shut_trans; [|apply shut_awaiting_init].
      destruct fn; [apply shut_registerHandler|apply shut_refl].
  - case_match.
    + eapply shut_trans; [|apply shut_emit].
      destruct fn; [apply shut_unregisterHandler|apply shut_refl].
    + eapply shut_trans; [|apply shut_awaiting_init].
      destruct fn; [apply shut_unregisterHandler|apply shut_refl].
  - eapply shut_trans; [|apply shut_awaiting_init]. by apply shut_same.
  - case_match; [|apply shut_emit]. by apply shut_same.
  - destruct k; try (by apply shut_same); apply shut_emit.
  - destruct k; simpl; try apply shut_reconnect_loop; by apply shut_same.
  - apply shut_close_finish.
Qed.

Lemma shut_call op st : shut st (call op st).
Proof.
  unfold call. destruct op.
  1-4: eapply shut_trans; [|apply shut_awaiting_init]; by apply shut_same.
  unfold close. cbv zeta.
  change (connectingPromise (set_closed true _)) with (connectingPromise st).
  assert (shut st (set_closed true (set_next_task (S (next_task st)) st))) as H.
  { intros Hc. split; [done|]. right. by split. }
  destruct (connectingPromise st).
  - eapply shut_trans; [exact H|apply shut_await].
  - eapply shut_trans; [exact H|apply shut_close_finish].
Qed.

(** A state whose core is given and whose promise slot is empty. *)
Lemma shut_emptied st st' c i g w d S A T N :
  core st' = (c, i, g, None, w, d, S, A, T, N) -> c = closed st -> shut st st'.
Proof.
  intros H -> Hc. apply core_inv in H as (Hc' & _ & _ & Hp & _).
  split; [congruence|]. by left.
Qed.

Lemma shut_runOnSuccess a st : shut st (runOnSuccess a st).
Proof.
  destruct (attempts st !! a) as [x|] eqn:Hx.
  2:{ rewrite runOnSuccess_skip; [apply shut_refl|by rewrite Hx]. }
  destruct (att_promiseDone x) eqn:Hd.
  { rewrite runOnSuccess_skip; [apply shut_refl|rewrite Hx; by left]. }
  destruct (att_phase x) as [|s|] eqn:Hw.
  1,3: rewrite runOnSuccess_skip;
    [apply shut_refl|rewrite Hx; right; congruence].
  eapply shut_emptied; [by eapply core_runOnSuccess|done].
Qed.

Lemma shut_retryConnect now st : shut st (retryConnect now st).
Proof. intros Hc. rewrite retryConnect_skip by auto. by apply shut_refl. Qed.

Lemma shut_onerror a now st : shut st (socket_onerror a now st).
Proof.
  unfold socket_onerror. destruct (attempts st !! a) as [x|]; [|apply shut_refl].
  destruct (att_promiseDone x); [apply shut_refl|].
  eapply shut_trans; [|apply shut_retryConnect].
  eapply shut_emptied; [apply core_rej|done].
Qed.

Lemma shut_onclose s now st : shut st (fire_onclose s now st).
Proof.
  unfold fire_onclose. destruct (sockets st !! s) as [k|]; [|apply shut_refl].
  destruct (onclose k); [|apply shut_refl]. unfold socket_onclose.
  eapply shut_trans; [|apply shut_retryConnect]. by apply shut_same.
Qed.

Lemma shut_timer a st : shut st (timer_fired a st).
Proof.
  unfold timer_fired. destruct (attempts st !! a) as [x|]; [|apply shut_refl].
  destruct (att_phase x); try apply shut_refl.
  assert (Hwire : forall st0 s, shut st0 (wire a s st0)).
  { intros st0 s. unfold wire.
    destruct (attempts st0 !! a) as [y|]; [|apply shut_refl].
    destruct (sockets st0 !! s) as [k|]; [|apply shut_refl].
    destruct (ReadyState_eqb (readyState k) OPEN).
    - eapply shut_trans; [|apply shut_runOnSuccess]. by apply shut_same.
    - by apply shut_same. }
  destruct (socket (config st)) as [s|]; [by apply Hwire|].
  destruct (url (config st)) as [u|]; [|by apply shut_same].
  eapply shut_trans; [|apply Hwire]. by apply shut_same.
Qed.

Lemma shut_handleMessage c p st : shut st (handleMessage c p st).
Proof.
  unfold handleMessage. destruct (handler st !! c) as [l|]; [|apply shut_refl].
  revert st. induction l as [|h l IH]; intros st; [apply shut_refl|].
  simpl. eapply shut_trans; [apply shut_emit|apply IH].
Qed.

Lemma shut_step ev st : shut st (step ev st).
Proof.
  destruct ev as [op| |a|s|s now|s now|s c p]; cbn [step].
  - apply shut_call.
  - destruct (ready st) as [|t r]; [apply shut_refl|].
    eapply shut_trans; [|apply shut_resume]. by apply shut_same.
  - apply shut_timer.
  - destruct (sockets st !! s) as [k|]; [|apply shut_refl].
    destruct (readyState k); try apply shut_refl.
    destruct (onopen k).
    + eapply shut_trans; [|apply shut_runOnSuccess]. by apply shut_same.
    + by apply shut_same.
  - destruct (sockets st !! s) as [k|]; [|apply shut_refl].
    assert (shut st
      (fire_onclose s now
         match onerror k with
         | Some a =>
             socket_onerror a now
               (set_sockets (<[s:=set_readyState CLOSED k]> (sockets st)) st)
         | None => set_sockets (<[s:=set_readyState CLOSED k]> (sockets st)) st
         end)) as Hgo.
    { eapply shut_trans; [|apply shut_onclose].
      destruct (onerror k).
      - eapply shut_trans; [|apply shut_onerror]. by apply shut_same.
      - by apply shut_same. }
    destruct (readyState k); try apply shut_refl; apply Hgo.
  - destruct (sockets st !! s) as [k|]; [|apply shut_refl].
    assert (shut st
      (fire_onclose s now
         (set_sockets (<[s:=set_readyState CLOSED k]> (sockets st)) st))) as Hgo.
    { eapply shut_trans; [|apply shut_onclose]. by apply shut_same. }
    destruct (readyState k); try apply shut_refl; apply Hgo.
  - destruct (sockets st !! s) as [k|]; [|apply shut_refl].
    destruct (readyState k); try apply shut_refl;
      (destruct (onmessage k); [apply shut_handleMessage|apply shut_refl]).
Qed.

Lemma closing_shut st st' : shut st st' -> closed st = true ->
  closing st -> closing st'.
Proof.
  intros Hs Hc Hcl _ a Ha. destruct (Hs Hc) as [_ [Hp|[Hp Hw]]]; [congruence|].
  rewrite Hp in Ha. destruct (Hcl Hc a Ha) as [t Ht]. exists t. by apply Hw.
Qed.

Lemma closing_run evs st :
  closed st = true -> closing st ->
  closed (run evs st) = true /\ closing (run evs st).
Proof.
  revert st. induction evs as [|ev evs IH]; intros st Hc Hcl; [done|].
  simpl. destruct (shut_step ev st Hc) as [Hc1 _].
  apply IH; [done|]. by eapply closing_shut; [apply shut_step|..].
Qed.

Lemma close_finish_slot t st :
  closed (close_finish t st) = closed st /\
  connectingPromise (close_finish t st) = connectingPromise st.
Proof.
  unfold close_finish. destruct (ws st) as [s|]; [|done]. unfold ws_close.
  destruct (sockets st !! s) as [k|]; [|done]. by destruct (readyState k).
Qed.

(** [close()] is called on a client in which the slot names a pending
    attempt, if it names one. *)
Lemma closing_call_close st :
  single_flight st ->
  closed (call Close st) = true /\ closing (call Close st).
Proof.
  intros [_ H2 _ _ _]. unfold call, close. cbv zeta.
  change (connectingPromise (set_closed true _)) with (connectingPromise st).
  destruct (connectingPromise st) as [a|] eqn:Hp.
  - destruct (H2 a eq_refl) as (x & Hx & Hpx).
    unfold await, promise_of. cbn [attempts set_closed set_next_task].
    rewrite Hx. cbn [fmap option_fmap option_map]. rewrite Hpx.
    split; [done|]. intros _ b Hb. cbn in Hb. rewrite Hp in Hb.
    injection Hb as <-. exists (next_task st). cbn. apply elem_of_app.
    right. by apply list_elem_of_singleton.
  - destruct (close_finish_slot (next_task st)
                (set_closed true (set_next_task (S (next_task st)) st)))
      as [Hc Hn].
    split; [by rewrite Hc|]. intros _ b Hb. rewrite Hn in Hb. cbn in Hb.
    congruence.
Qed.

Lemma close_waiting_false st a t :
  close_waiting st = false -> (a, mkTask t K_close) ∉ waiting st.
Proof.
  unfold close_waiting. intros H Hin.
  assert (existsb (fun w => is_close (task_cont w.2)) (waiting st) = true) as H1.
  { apply existsb_exists. exists (a, mkTask t K_close). split; [|done].
    by apply list_elem_of_In. }
  congruence.
Qed.

(** ** The subscription methods on a connected, idle client *)

Lemma registerHandler_eq c f st :
  registerHandler c f st =
  set_handler (<[c := default [] (handler st !! c) ++ [f]]> (handler st)) st.
Proof.
  unfold registerHandler. destruct (handler st !! c) eqn:E; simpl.
  - by rewrite E.
  - rewrite lookup_insert_eq. simpl. by rewrite insert_insert_eq.
Qed.

Lemma handler_unregisterHandler c f st :
  handler (unregisterHandler c f st) =
  match handler st !! c with
  | Some l => <[c := List.filter (fun fn => Nat.eqb fn f) l]> (handler st)
  | None => handler st
  end.
Proof. unfold unregisterHandler. by destruct (handler st !! c). Qed.

Lemma log_unregisterHandler c f st : log (unregisterHandler c f st) = log st.
Proof. unfold unregisterHandler. by destruct (handler st !! c). Qed.

Lemma next_task_unregisterHandler c f st :
  next_task (unregisterHandler c f st) = next_task st.
Proof. unfold unregisterHandler. by destruct (handler st !! c). Qed.

Lemma subscribed_unregisterHandler c f st :
  subscribed (unregisterHandler c f st) = subscribed st.
Proof. unfold unregisterHandler. by destruct (handler st !! c). Qed.

Lemma subscribed_push_channel c st :
  subscribed (push_channel c st) = subscribed st ++ [c].
Proof. unfold subscribed, push_channel. simpl. by rewrite lookup_insert_eq. Qed.

Lemma subscribed_drop_channel c st :
  subscribed (drop_channel c st) =
  List.filter (fun c' => negb (String.eqb c' c)) (subscribed st).
Proof. unfold subscribed, drop_channel. simpl. by rewrite lookup_insert_eq. Qed.

Lemma subscribed_emit e st : subscribed (emit e st) = subscribed st.
Proof. done. Qed.

Lemma subscribed_set_handler h st : subscribed (set_handler h st) = subscribed st.
Proof. done. Qed.

Lemma subscribed_set_next_task n st :
  subscribed (set_next_task n st) = subscribed st.
Proof. done. Qed.

Create Rewrite HintDb channels.
#[local] Hint Rewrite subscribed_emit subscribed_set_handler
  subscribed_set_next_task subscribed_push_channel subscribed_drop_channel
  subscribed_unregisterHandler : channels.

Lemma has_handlers_false c st :
  has_handlers c st = false -> default [] (handler st !! c) = [].
Proof.
  unfold has_handlers. by destruct (handler st !! c) as [[|]|].
Qed.

Lemma sent_app l1 l2 : sent (l1 ++ l2) = sent l1 ++ sent l2.
Proof. apply omap_app. Qed.

Lemma invoked_app l1 l2 : invoked (l1 ++ l2) = invoked l1 ++ invoked l2.
Proof. apply omap_app. Qed.

(** [subscribe(channel, handler)] *)
Lemma subscribe_spec n st s c fn :
  ws st = Some s -> ready st = [] ->
  let st' := drain (4 + n) (call (Subscribe c fn) st) in
  ws st' = Some s /\ ready st' = [] /\ next_task st' = S (next_task st) /\
  handler st' =
    match fn with
    | Some f => <[c := default [] (handler st !! c) ++ [f]]> (handler st)
    | None => handler st
    end /\
  if has_handlers c st
  then subscribed st' = subscribed st /\
       log st' = log st ++ [Resolved (next_task st)]
  else subscribed st' = subscribed st ++ [c] /\
       log st' = log st ++ [WsSend s (subscribe_env c); Resolved (next_task st)].
Proof.
  intros Hws Hr st'. subst st'. rewrite (drain_subscribe _ _ s) by done.
  cbv zeta. destruct (has_handlers c st); destruct fn as [f|];
    rewrite ?registerHandler_eq; autorewrite with channels; simpl;
    repeat split; try done; by rewrite <- ?app_assoc.
Qed.

(** [unsubscribe(channel, handler)] *)
Lemma unsubscribe_spec n st s c fn :
  ws st = Some s -> ready st = [] ->
  let st' := drain (4 + n) (call (Unsubscribe c fn) st) in
  let h' :=
    match fn, handler st !! c with
    | Some f, Some l =>
        <[c := List.filter (fun fn => Nat.eqb fn f) l]> (handler st)
    | _, _ => handler st
    end in
  ws st' = Some s /\ ready st' = [] /\ next_task st' = S (next_task st) /\
  handler st' = h' /\
  match h' !! c with
  | Some (_ :: _) =>
      subscribed st' = subscribed st /\
      log st' = log st ++ [Resolved (next_task st)]
  | _ =>
      subscribed st' =
        List.filter (fun c' => negb (String.eqb c' c)) (subscribed st) /\
      log st' =
        log st ++ [WsSend s (unsubscribe_env c); Resolved (next_task st)]
  end.
Proof.
  intros Hws Hr st' h'. subst st'. rewrite (drain_unsubscribe _ _ s) by done.
  cbv zeta.
  set (st1 := match fn with
              | Some f => unregisterHandler c f (set_next_task (S (next_task st)) st)
              | None => set_next_task (S (next_task st)) st
              end).
  assert (handler st1 = h') as Hh.
  { subst st1 h'. destruct fn as [f|]; [|by destruct (handler st !! c)].
    by rewrite handler_unregisterHandler. }
  assert (ws st1 = Some s /\ ready st1 = [] /\ next_task st1 = S (next_task st)
          /\ log st1 = log st /\ subscribed st1 = subscribed st)
    as (Hw1 & Hr1 & Hn1 & Hl1 & Hs1).
  { subst st1. destruct fn as [f|]; [|done].
    by rewrite ws_unregisterHandler, ready_unregisterHandler,
      next_task_unregisterHandler, log_unregisterHandler,
      subscribed_unregisterHandler. }
  unfold has_handlers. rewrite Hh.
  destruct (h' !! c) as [[|f0 l0]|]; autorewrite with channels; simpl;
    rewrite ?Hl1, ?Hs1; repeat split; try done; by rewrite <- ?app_assoc.
Qed.

(** [unsubscribeAll(channel)] *)
Lemma unsubscribeAll_spec n st s c :
  ws st = Some s -> ready st = [] ->
  let st' := drain (4 + n) (call (UnsubscribeAll c) st) in
  ws st' = Some s /\ ready st' = [] /\ next_task st' = S (next_task st) /\
  handler st' = delete c (handler st) /\
  subscribed st' =
    List.filter (fun c' => negb (String.eqb c' c)) (subscribed st) /\
  log st' = log st ++ [WsSend s (unsubscribe_env c); Resolved (next_task st)].
Proof.
  intros Hws Hr st'. subst st'. rewrite (drain_unsubscribeAll _ _ s) by done.
  cbv zeta. autorewrite with channels. simpl.
  repeat split; try done. by rewrite <- ?app_assoc.
Qed.

Lemma log_handleMessage c p st :
  log (handleMessage c p st) =
  log st ++ ((fun fn => HandlerCall fn p) <$> default [] (handler st !! c)).
Proof.
  unfold handleMessage. destruct (handler st !! c) as [l|]; simpl.
  2:{ by rewrite app_nil_r. }
  revert st. induction l as [|h l IH]; intros st; simpl.
  - by rewrite app_nil_r.
  - rewrite IH. simpl. by rewrite <- app_assoc.
Qed.

Lemma invoked_calls (l : list MessageHandlerFn) p :
  invoked ((fun fn => HandlerCall fn p) <$> l) = (fun fn => (fn, p)) <$> l.
Proof. induction l as [|h l IH]; [done|]. cbn. by f_equal. Qed.

(** Dispatch invokes the registered handlers, in the order of the
    channel's sequence. *)
Lemma invoked_handleMessage c p st :
  invoked (log (handleMessage c p st)) =
  invoked (log st) ++ ((fun fn => (fn, p)) <$> default [] (handler st !! c)).
Proof. by rewrite log_handleMessage, invoked_app, invoked_calls. Qed.

(** * The claims *)

(** ** Subscriptions *)

Lemma subscribe_first n st s c fn :
  ws st = Some s -> ready st = [] -> has_handlers c st = false ->
  let st' := drain (4 + n) (call (Subscribe c fn) st) in
  ws st' = Some s /\ ready st' = [] /\
  handler st' =
    match fn with
    | Some f => <[c := [f]]> (handler st)
    | None => handler st
    end /\
  subscribed st' = subscribed st ++ [c] /\
  sent (log st') = sent (log st) ++ [(s, subscribe_env c)].
Proof.
  intros Hws Hr Hh st'.
  destruct (subscribe_spec n st s c fn Hws Hr) as (H1 & H2 & _ & H4 & H5).
  fold st' in H1, H2, H4, H5. rewrite Hh in H5. destruct H5 as [H5 H6].
  rewrite (has_handlers_false _ _ Hh) in H4.
  repeat split; try done. rewrite H6, sent_app. simpl. done.
Qed.




(** C1 (what the code does).  On a connected client with no task in
    progress and no handler for channel [c], after [subscribe(c, h)] and
    then [unsubscribe(c, h)] the handler [h] is still the handler
    sequence of [c], the only envelope written is the [subscribe] one (no
    [unsubscribe] envelope), [c] is still in the subscribed-channel
    sequence, and a message dispatched on [c] still invokes [h]:
    [unregisterHandler] keeps the entries that are identical to [h]
    instead of removing them. *)
Theorem unsubscribe_keeps_the_handler st s c h p n1 n2 :
  ws st = Some s -> ready st = [] -> has_handlers c st = false ->
  let st1 := drain (4 + n1) (call (Subscribe c (Some h)) st) in
  let st2 := drain (4 + n2) (call (Unsubscribe c (Some h)) st1) in
  handler st2 !! c = Some [h] /\
  sent (log st2) = sent (log st) ++ [(s, subscribe_env c)] /\
  subscribed st2 = subscribed st ++ [c] /\
  invoked (log (handleMessage c p st2)) = invoked (log st2) ++ [(h, p)].
Proof.
  intros Hws Hr Hh st1 st2.
  destruct (subscribe_first n1 st s c (Some h) Hws Hr Hh)
    as (Hw1 & Hr1 & Hh1 & Hs1 & Hl1). fold st1 in Hw1, Hr1, Hh1, Hs1, Hl1.
  destruct (unsubscribe_spec n2 st1 s c (Some h) Hw1 Hr1)
    as (_ & _ & _ & Hh2 & H5). fold st2 in Hh2, H5.
  rewrite Hh1, lookup_insert_eq in Hh2, H5. simpl in Hh2, H5.
  rewrite Nat.eqb_refl, insert_insert_eq in Hh2, H5.
  rewrite lookup_insert_eq in H5. destruct H5 as [Hs2 Hl2].
  assert (handler st2 !! c = Some [h]) as Hc.
  { by rewrite Hh2, lookup_insert_eq. }
  repeat split; try done.
  - rewrite Hl2, sent_app. simpl. by rewrite app_nil_r.
  - congruence.
  - by rewrite invoked_handleMessage, Hc.
Qed.

Lemma unsubscribe_keeps_the_handler_witness :
  handler (drain 4 (call (Unsubscribe "a" (Some 1%nat))
             (drain 4 (call (Subscribe "a" (Some 1%nat)) connected_client))))
    !! "a" = Some [1%nat].
Proof.
  destruct (unsubscribe_keeps_the_handler connected_client 0%nat "a" 1%nat "p"
              0%nat 0%nat)
    as (H1 & _); [reflexivity..|].
  exact H1.
Defined.







(** ** Reconnect replay *)











(** ** After [close()] *)

Lemma lawful_mono b b' st st' :
  (b' = true -> b = true) -> lawful b st st' -> lawful b' st st'.
Proof.
  intros Hb (Hg & Hi & Hc & Hp & Hd & Hf). lawful_split; try done. by auto.
Qed.

Lemma old_at_lawful b st st' ev :
  lawful b st st' -> old_at st' ev = old_at st ev.
Proof.
  intros H. unfold old_at. destruct (event_time ev); [|done].
  by eapply too_old_lawful.
Qed.

Lemma forallb_same {A} (f g : A -> bool) (l : list A) :
  (forall x, f x = g x) -> forallb f l = forallb g l.
Proof. intros H. induction l as [|x l IH]; simpl; [done|]. by rewrite H, IH. Qed.

Lemma lawful_run evs st :
  lawful (forallb (old_at st) evs) st (run evs st).
Proof.
  revert st. induction evs as [|ev evs IH]; intros st; [apply lawful_refl|].
  pose proof (lawful_step ev st) as H1. pose proof (IH (step ev st)) as H2.
  simpl. eapply lawful_trans.
  - eapply lawful_mono; [|exact H1]. by intros [? _]%andb_prop.
  - eapply lawful_mono; [|exact H2]. intros [_ H]%andb_prop.
    rewrite <- H. apply forallb_same. intros e. by eapply old_at_lawful.
Qed.

(** Once closed with no attempt pending, a client stays so. *)
Lemma closed_stays evs st :
  closed st = true -> connectingPromise st = None ->
  closed (run evs st) = true /\ connectingPromise (run evs st) = None.
Proof.
  intros Hc Hp. destruct (lawful_run evs st) as (_ & _ & H1 & H2 & _). auto.
Qed.

Lemma io_rejected t r : List.filter is_io [Rejected t r] = [].
Proof. done. Qed.

(** C2 (amended).  In every history of a client in which [close()] was
    called: once no call of [close()] is suspended any more and the
    client holds no transport ([ws] is unset), [connect] fails at once
    with the rejection of its [closed] guard, and [subscribe],
    [unsubscribe], [unsubscribeAll] and [send] fail with that rejection
    and do nothing else: no timer, no transport construction, no write,
    no queued continuation. *)
Theorem closed_client_rejects cfg t0 pre before after op :
  op <> Close ->
  let st :=
    run (before ++ Call Close :: after) (new_TubesClient cfg t0 pre) in
  close_waiting st = false -> ws st = None ->
  (forall d r, connect d r st = (Settled_err ClosedError, st)) /\
  call op st =
    emit (Rejected (next_task st) ClosedError)
      (set_next_task (S (next_task st)) st) /\
  List.filter is_io (log (call op st)) = List.filter is_io (log st).
Proof.
  intros Hop st Hcw Hws.
  assert (closed st = true /\ closing st) as [Hc Hcl].
  { subst st. rewrite run_app.
    change (run (Call Close :: after) ?x) with (run after (call Close x)).
    destruct (closing_call_close (run before (new_TubesClient cfg t0 pre)))
      as [Hc0 Hcl0]; [apply single_flight_run, single_flight_new|].
    by apply closing_run. }
  assert (connectingPromise st = None) as Hp.
  { destruct (connectingPromise st) as [a|] eqn:Hp; [|done].
    destruct (Hcl Hc a Hp) as [t Ht].
    by destruct (close_waiting_false st a t Hcw). }
  assert (call op st =
    emit (Rejected (next_task st) ClosedError)
      (set_next_task (S (next_task st)) st)) as Hcall.
  { unfold call. destruct op; try done;
      unfold subscribe, unsubscribe, unsubscribeAll, send, lazyInit;
      cbn [ws connectingPromise set_next_task]; rewrite Hws, Hp;
      rewrite connect_closed by done; reflexivity. }
  split; [|split; [done|]].
  - intros d r. by apply connect_closed.
  - rewrite Hcall. cbn [log emit set_log set_next_task].
    by rewrite List.filter_app, io_rejected, app_nil_r.
Qed.

Lemma closed_client_rejects_witness :
  let st :=
    run ([Call (Send "hello" None None); TimerFire 0; SockOpen 0; Tick; Tick]
           ++ Call Close :: [SockClose 0 20]) example_client in
  call (Subscribe "a" (Some 1%nat)) st =
  emit (Rejected 2 ClosedError) (set_next_task 3 st).
Proof.
  destruct (closed_client_rejects example_config 0 []
              [Call (Send "hello" None None); TimerFire 0%nat; SockOpen 0%nat;
               Tick; Tick]
              [SockClose 0%nat 20] (Subscribe "a" (Some 1%nat)))
    as (_ & H & _); [discriminate|reflexivity|reflexivity|].
  exact H.
Defined.

(** C2 as stated fails: [close()] has completed (its promise is
    resolved) but the client still holds the transport it asked to
    close, so [send] is not rejected and writes to it. *)
Lemma closed_client_still_writes :
  closed closed_client = true /\
  log closed_client = log connected_client ++ [WsClose 0; Resolved 1] /\
  log (drain 2 (call (Send "a" None None) closed_client)) =
    log closed_client ++ [WsSend 0 (envelope "a" None None); Resolved 2].
Proof. vm_compute. repeat split. Qed.

(** ** Retries *)

Lemma too_old_later m now t st :
  maxRetryAge (config st) = Some m -> m <> 0 ->
  m * 1000 < now - initTime st -> now <= t -> too_old t st = true.
Proof.
  intros Hm Hne Hage Ht. unfold too_old. rewrite Hm. simpl.
  apply andb_true_intro. split.
  - apply negb_true_iff. by apply Z.eqb_neq.
  - apply Z.ltb_lt. lia.
Qed.

Lemma retries_flags st st' k :
  retry_flags st' = retry_flags st ++ replicate k false ->
  retries st' = retries st.
Proof.
  intros H. unfold retries. rewrite H, List.filter_app.
  assert (List.filter (fun b : bool => b) (replicate k false) = []) as ->.
  { clear H. induction k as [|k IH]; [done|]. exact IH. }
  by rewrite app_nil_r.
Qed.

(** C8 (amended).  Once the time since construction exceeds the
    configured [maxRetryAge], a number of seconds other than 0,
    [retryConnect] returns the client unchanged (no attempt, no timer, no
    rejection), at that time and at every later time and state; and no
    sequence of later events adds an attempt started by a retry. *)
Theorem old_client_never_retries st m now evs :
  maxRetryAge (config st) = Some m -> m <> 0 ->
  m * 1000 < now - initTime st ->
  (forall ev t, ev ∈ evs -> event_time ev = Some t -> now <= t) ->
  retryConnect now st = st /\
  (forall t, now <= t -> retryConnect t (run evs st) = run evs st) /\
  retries (run evs st) = retries st.
Proof.
  intros Hm Hne Hage Hevs.
  assert (forallb (old_at st) evs = true) as Hall.
  { apply forallb_forall. intros ev Hin%list_elem_of_In. unfold old_at.
    destruct (event_time ev) as [t|] eqn:Ht; [|done].
    eapply too_old_later; eauto. }
  pose proof (lawful_run evs st) as Hl. rewrite Hall in Hl.
  split; [|split].
  - apply retryConnect_skip. right. by eapply too_old_later.
  - intros t Ht. apply retryConnect_skip. right.
    rewrite (too_old_lawful _ _ _ _ Hl). by eapply too_old_later.
  - destruct Hl as (_ & _ & _ & _ & _ & Hf). destruct (Hf eq_refl) as [k Hk].
    by eapply retries_flags.
Qed.

Lemma old_client_never_retries_witness :
  retries (run [SockError 0 50000000; TimerFire 1]
             (run [Call (Send "hello" None None); TimerFire 0]
                example_client)) = 0%nat.
Proof.
  destruct (old_client_never_retries
              (run [Call (Send "hello" None None); TimerFire 0]
                 example_client)
              43200 50000000 [SockError 0%nat 50000000; TimerFire 1%nat])
    as (_ & _ & H); [reflexivity|discriminate|reflexivity| |].
  - intros ev t Hin Ht.
    apply list_elem_of_In in Hin. simpl in Hin.
    destruct Hin as [<-|[<-|[]]]; simpl in Ht; [|discriminate].
    injection Ht as <-. reflexivity.
  - exact H.
Defined.

(** C8 as stated fails for [maxRetryAge: 0]: five seconds after
    construction the elapsed time exceeds 0 seconds, and the failed
    connection is retried all the same. *)
Lemma zero_maxRetryAge_keeps_retrying :
  maxRetryAge (config ageless_client) = Some 0 /\
  0 * 1000 < 5000 - initTime ageless_client /\
  retries ageless_client = 0%nat /\
  retries (step (SockError 0 5000) ageless_client) = 1%nat /\
  timeouts (log (step (SockError 0 5000) ageless_client)) = [0; 0].
Proof. vm_compute. repeat split. Qed.

(** C3.  A retry that is not stopped by [close()] or by the age of the
    client sets [currentRetryDelay] to twice its previous value when
    [exponentialRetryBackoff] is true and to the configured [retryDelay]
    when it is false, and the attempt it starts waits that long.  With
    exponential backoff the delay therefore never leaves its initial
    value 0, whatever happens: every timer is set to 0, and three
    connection failures in a row give the delays 0, 0, 0.  Every
    successful connect sets [currentRetryDelay] to 0. *)
Theorem retry_delay_policy :
  (forall now st,
     closed st = false -> too_old now st = false ->
     let st' := retryConnect now st in
     (exponentialRetryBackoff (config st) = Some true ->
      currentRetryDelay st' = currentRetryDelay st * 2) /\
     (forall d, exponentialRetryBackoff (config st) = Some false ->
      retryDelay (config st) = Some d -> currentRetryDelay st' = d) /\
     (connectingPromise st = None ->
      timeouts (log st') = timeouts (log st) ++ [currentRetryDelay st'] /\
      retries st' = S (retries st))) /\
  (forall st evs,
     exponentialRetryBackoff (config st) = Some true ->
     currentRetryDelay st = 0 ->
     currentRetryDelay (run evs st) = 0 /\
     exists k, timeouts (log (run evs st)) = timeouts (log st) ++ replicate k 0) /\
  (timeouts (log (run three_failures example_client)) = [0; 0; 0; 0] /\
   retries (run three_failures example_client) = 3%nat) /\
  (forall a st x s,
     attempts st !! a = Some x -> att_promiseDone x = false ->
     att_phase x = Wired s ->
     currentRetryDelay (runOnSuccess a st) = 0 /\
     ws (runOnSuccess a st) = Some s).
Proof.
  split; [|split; [|split]].
  - intros now st Hc Ho st'. subst st'. rewrite retryConnect_go by done.
    set (d := next_delay st).
    assert (currentRetryDelay
              (snd (connect d true (set_currentRetryDelay d st))) = d) as Hd.
    { unfold connect. cbn [closed connectingPromise set_currentRetryDelay].
      rewrite Hc. by destruct (connectingPromise st). }
    rewrite Hd. subst d. split; [|split].
    + unfold next_delay. by intros ->.
    + unfold next_delay. by intros d -> ->.
    + intros Hp.
      pose proof (core_connect_new (next_delay st) true
                    (set_currentRetryDelay (next_delay st) st) Hc Hp) as H.
      apply core_inv in H as (_&_&_&_&_&_&_&Ha&Ht&_).
      split; [exact Ht|]. unfold retries, retry_flags. rewrite Ha.
      cbn [attempts set_currentRetryDelay].
      rewrite fmap_app, List.filter_app. cbn. rewrite length_app. cbn. lia.
  - intros st evs He H0.
    destruct (lawful_run evs st) as (_ & _ & _ & _ & H & _).
    apply H; [by rewrite He|done].
  - by vm_compute.
  - intros a st x s Hx Hd Hw.
    pose proof (core_runOnSuccess a st x s Hx Hd Hw) as H.
    by apply core_inv in H as (_&_&_&_&?&?&_).
Qed.

Lemma retry_delay_policy_witness :
  currentRetryDelay (retryConnect 10 connected_client) =
  currentRetryDelay connected_client * 2.
Proof.
  destruct retry_delay_policy as (H & _).
  destruct (H 10 connected_client) as (H1 & _); [reflexivity..|].
  apply H1. reflexivity.
Defined.

(** ** Single flight *)

Lemma in_flight_at_most_one (A : list Attempt) :
  (forall a b x y, A !! a = Some x -> A !! b = Some y ->
     att_promise x = Pending -> att_promise y = Pending -> a = b) ->
  (length (List.filter pending A) <= 1)%nat.
Proof.
  induction A as [|x A IH]; intros H; [simpl; lia|].
  assert (length (List.filter pending A) <= 1)%nat as IH'.
  { apply IH. intros a b x' y' Ha Hb Hx Hy.
    specialize (H (S a) (S b) x' y' Ha Hb Hx Hy). lia. }
  simpl. destruct (pending x) eqn:Hp; [|done].
  assert (List.filter pending A = []) as ->; [|simpl; lia].
  destruct (List.filter pending A) as [|y l] eqn:Hf; [done|].
  assert (In y (List.filter pending A)) as Hin by (rewrite Hf; by left).
  apply filter_In in Hin as [Hin Hy].
  apply list_elem_of_In, list_elem_of_lookup in Hin as [b Hb].
  unfold pending in Hp, Hy.
  destruct (att_promise x) eqn:Hx; try done.
  destruct (att_promise y) eqn:Hy'; try done.
  specialize (H 0%nat (S b) x y eq_refl Hb Hx Hy'). lia.
Qed.

Lemma first_subscribe_starts cfg t0 u c fn :
  socket cfg = None -> url cfg = Some u ->
  first_attempt_waited u 1
    (call (Subscribe c fn) (new_TubesClient cfg t0 [])).
Proof.
  intros Hs Hu. unfold first_attempt_waited. cbn. rewrite Hs, Hu. done.
Qed.

Lemma next_subscribe_waits u k c fn st :
  first_attempt_waited u k st ->
  first_attempt_waited u (S k) (call (Subscribe c fn) st).
Proof.
  intros (Hc & Hw & Hp & Ha & Hs & Hl & Hwt & Hcs & Hcu).
  unfold call, subscribe, lazyInit. cbn [ws connectingPromise set_next_task].
  rewrite Hw, Hp. unfold await, promise_of. cbn [attempts set_next_task].
  rewrite Ha. cbn [lookup list_lookup fmap option_fmap option_map att_promise].
  unfold first_attempt_waited.
  cbn [closed ws connectingPromise attempts sockets log waiting config
       set_waiting set_next_task].
  repeat split; try done.
  rewrite fmap_app, Hwt. cbn. rewrite <- replicate_cons_app. done.
Qed.

Lemma subscribes_wait u subs st k :
  first_attempt_waited u k st ->
  first_attempt_waited u (length subs + k) (run (subscribe_calls subs) st).
Proof.
  revert st k. induction subs as [|[c fn] subs IH]; intros st k H; [done|].
  cbn. replace (S (length subs + k)) with (length subs + S k)%nat by lia.
  apply IH. by apply next_subscribe_waits.
Qed.

Lemma subscribes_wait_new cfg t0 u subs :
  socket cfg = None -> url cfg = Some u -> subs <> [] ->
  first_attempt_waited u (length subs)
    (run (subscribe_calls subs) (new_TubesClient cfg t0 [])).
Proof.
  intros Hs Hu Hne. destruct subs as [|[c fn] subs]; [done|].
  change (run (subscribe_calls ((c, fn) :: subs)) (new_TubesClient cfg t0 []))
    with (run (subscribe_calls subs)
            (call (Subscribe c fn) (new_TubesClient cfg t0 []))).
  replace (length ((c, fn) :: subs)) with (length subs + 1)%nat
    by (simpl; lia).
  by apply subscribes_wait, first_subscribe_starts.
Qed.

(** C4.  In every state a client can reach, with sockets that deliver
    their events as [step] lets them (open while connecting, error on
    closing, nothing once closed), at most one connection attempt is
    pending, and it is the one the promise slot [connectingPromise]
    holds.  While the slot is taken, [connect] and
    [lazyInit] hand out the promise in the slot and start nothing.  Any
    number of [subscribe] calls issued on a new client before the
    connection exists start one attempt with one timer and, when the
    timer fires, construct one transport; all of them wait for that
    attempt. *)
Theorem connection_attempts_are_single_flight :
  (forall cfg t0 pre evs,
     let st := run evs (new_TubesClient cfg t0 pre) in
     (length (in_flight st) <= 1)%nat /\
     (forall a x, attempts st !! a = Some x -> att_promise x = Pending ->
        connectingPromise st = Some a) /\
     (forall a, connectingPromise st = Some a ->
        exists x, attempts st !! a = Some x /\ att_promise x = Pending)) /\
  (forall st a d r,
     closed st = false -> connectingPromise st = Some a ->
     connect d r st = (Pending_on a, st)) /\
  (forall st a,
     ws st = None -> connectingPromise st = Some a ->
     lazyInit st = (Pending_on a, st)) /\
  (forall cfg t0 u subs,
     socket cfg = None -> url cfg = Some u -> subs <> [] ->
     let st :=
       run (subscribe_calls subs ++ [TimerFire 0]) (new_TubesClient cfg t0 []) in
     length (attempts st) = 1%nat /\ timeouts (log st) = [0] /\
     constructed (log st) = [0%nat] /\
     fst <$> waiting st = replicate (length subs) 0%nat).
Proof.
  split; [|split; [|split]].
  - intros cfg t0 pre evs st.
    assert (single_flight st) as [H1 H2 _ _ _].
    { apply single_flight_run, single_flight_new. }
    split; [|split; [exact H1|exact H2]].
    apply in_flight_at_most_one. intros a b x y Ha Hb Hx Hy.
    pose proof (H1 _ _ Ha Hx). pose proof (H1 _ _ Hb Hy). congruence.
  - intros st a d r Hc Hp. by apply connect_shared.
  - intros st a Hw Hp. unfold lazyInit. by rewrite Hw, Hp.
  - intros cfg t0 u subs Hs Hu Hne st. subst st. rewrite run_app.
    destruct (subscribes_wait_new cfg t0 u subs Hs Hu Hne)
      as (Hc & Hw & Hp & Ha & Hsk & Hl & Hwt & Hcs & Hcu).
    set (st := run (subscribe_calls subs) _) in *.
    change (run [TimerFire 0] st) with (timer_fired 0 st).
    unfold timer_fired. rewrite Ha. cbn [lookup list_lookup att_phase].
    rewrite Hcs, Hcu, Hsk. cbn [length app]. unfold wire.
    cbn [attempts sockets emit set_log set_sockets].
    rewrite Ha. cbn.
    rewrite Hl, Hwt. cbn. repeat split; done.
Qed.

Lemma connection_attempts_are_single_flight_witness :
  constructed
    (log (run (subscribe_calls [("a", Some 1%nat); ("b", Some 2%nat);
                                ("a", Some 3%nat)] ++ [TimerFire 0])
            (new_TubesClient example_config 0 []))) = [0%nat].
Proof.
  destruct connection_attempts_are_single_flight as (_ & _ & _ & H).
  destruct (H example_config 0 "ws://tubes"
              [("a", Some 1%nat); ("b", Some 2%nat); ("a", Some 3%nat)])
    as (_ & _ & H3 & _); [reflexivity|reflexivity|discriminate|].
  exact H3.
Defined.

(** * Further properties of the code *)

(** ** The public methods on a connected, idle client *)

(** X1.  [send] on a connected client with no task in progress writes
    one envelope to the transport, with type ["message"] and payload
    [{}] where the caller gave none, and resolves; handlers, the
    subscribed-channel sequence and the transport are left alone. *)
Theorem send_writes_one_envelope st s c p ty n :
  ws st = Some s -> ready st = [] ->
  let st' := drain (2 + n) (call (Send c p ty) st) in
  log st' =
    log st ++ [WsSend s (mkEnvelope (default "message" ty) c (default "{}" p));
               Resolved (next_task st)] /\
  handler st' = handler st /\ subscribed st' = subscribed st /\
  ws st' = Some s /\ ready st' = [].
Proof.
  intros Hws Hr st'. subst st'. rewrite (drain_send_api _ _ s) by done.
  cbn. repeat split; try done. by rewrite <- app_assoc.
Qed.

Lemma send_writes_one_envelope_witness :
  log (drain 2 (call (Send "a" (Some "{x:1}") None) connected_client)) =
  log connected_client
    ++ [WsSend 0 (mkEnvelope "message" "a" "{x:1}"); Resolved 1].
Proof.
  destruct (send_writes_one_envelope connected_client 0%nat "a"
              (Some "{x:1}") None 0%nat) as (H & _); [reflexivity..|].
  exact H.
Defined.





Lemma others_app c l1 l2 : others c (l1 ++ l2) = others c l1 ++ others c l2.
Proof. apply List.filter_app. Qed.

Lemma others_idem c l : others c (others c l) = others c l.
Proof.
  unfold others. induction l as [|x l IH]; simpl; [done|].
  destruct (negb (String.eqb x c)) eqn:E; simpl; rewrite ?E, IH; done.
Qed.

Lemma others_self c : others c [c] = [].
Proof. unfold others. simpl. by rewrite String.eqb_refl. Qed.



(** X4.  The three subscription methods work on one channel: on a
    connected client with no task in progress, [subscribe],
    [unsubscribe] and [unsubscribeAll] for channel [c] leave the handler
    sequence of every other channel as it is, and leave the other
    channels in the subscribed-channel sequence where they are. *)
Theorem other_channels_are_untouched st s op c c' n :
  ws st = Some s -> ready st = [] -> channel_of op = Some c -> c' <> c ->
  let st' := drain (4 + n) (call op st) in
  handler st' !! c' = handler st !! c' /\
  others c (subscribed st') = others c (subscribed st).
Proof.
  intros Hws Hr Hop Hc st'. destruct op as [c0 fn|c0 fn|c0|c0 p ty|];
    try done; injection Hop as ->.
  - destruct (subscribe_spec n st s c fn Hws Hr) as (_ & _ & _ & Hh & H5).
    fold st' in Hh, H5. split.
    + rewrite Hh. destruct fn; [|done]. by rewrite lookup_insert_ne.
    + destruct (has_handlers c st); destruct H5 as [Hs _]; rewrite Hs; [done|].
      by rewrite others_app, others_self, app_nil_r.
  - destruct (unsubscribe_spec n st s c fn Hws Hr) as (_ & _ & _ & Hh & H5).
    fold st' in Hh, H5. cbv zeta in Hh, H5. split.
    + rewrite Hh. destruct fn as [f|]; [|done].
      destruct (handler st !! c); [|done]. by rewrite lookup_insert_ne.
    + destruct (_ !! c) as [[|? ?]|] in H5; destruct H5 as [Hs _]; rewrite Hs;
        try done.
      all: apply others_idem.
  - destruct (unsubscribeAll_spec n st s c Hws Hr) as (_ & _ & _ & Hh & Hs & _).
    fold st' in Hh, Hs. split; [|rewrite Hs; apply others_idem].
    rewrite Hh. by rewrite lookup_delete_ne.
Qed.

Lemma other_channels_are_untouched_witness :
  handler (drain 4 (call (UnsubscribeAll "a") subscribed_client)) !! "b" =
  handler subscribed_client !! "b".
Proof.
  destruct (other_channels_are_untouched subscribed_client 0%nat
              (UnsubscribeAll "a") "a" "b" 0%nat) as (H & _);
    [reflexivity|reflexivity|reflexivity|discriminate|].
  exact H.
Defined.





(** ** Dispatch *)



(** ** [close()] *)

(** X8.  [close()] on a client that holds a transport and has no attempt
    in flight finishes at once: it sets the closed flag, asks the
    transport to close (an open transport becomes closing) and
    resolves.  It keeps the reference to the transport, the handler
    store and the subscribed-channel sequence, and writes nothing to the
    transport: no channel is unsubscribed. *)
Theorem close_on_connected_client st s k :
  ws st = Some s -> connectingPromise st = None ->
  sockets st !! s = Some k -> readyState k = OPEN ->
  let st' := step (Call Close) st in
  closed st' = true /\ ws st' = Some s /\
  log st' = log st ++ [WsClose s; Resolved (next_task st)] /\
  sockets st' = <[s := set_readyState CLOSING k]> (sockets st) /\
  handler st' = handler st /\ subscribed st' = subscribed st /\
  ready st' = ready st /\ waiting st' = waiting st.
Proof.
  intros Hws Hp Hk Hr st'. subst st'. simpl. unfold call, close. cbv zeta.
  change (connectingPromise (set_closed true _)) with (connectingPromise st).
  rewrite Hp. unfold close_finish.
  change (ws (set_closed true _)) with (ws st). rewrite Hws.
  unfold ws_close.
  change (sockets (set_closed true _)) with (sockets st). rewrite Hk, Hr.
  simpl. repeat split; try done. by rewrite <- app_assoc.
Qed.

Lemma close_on_connected_client_witness :
  log (step (Call Close) connected_client) =
  log connected_client ++ [WsClose 0; Resolved 1].
Proof.
  destruct (close_on_connected_client connected_client 0%nat
              (mkSocket OPEN (Some 0%nat) (Some 0%nat) true true))
    as (_ & _ & H & _); [reflexivity..|].
  exact H.
Defined.

(** ** What every event keeps of the link to the server *)

Lemma statuses_app l1 l2 : statuses (l1 ++ l2) = statuses l1 ++ statuses l2.
Proof. apply omap_app. Qed.

Lemma statuses_rejected (l : list Task) r :
  statuses ((fun t => Rejected (task_id t) r) <$> l) = [].
Proof. by induction l. Qed.

Lemma wired_le_refl S : wired_le S S.
Proof. intros s k Hk Hw. by exists k. Qed.

Lemma wired_le_trans S1 S2 S3 :
  wired_le S1 S2 -> wired_le S2 S3 -> wired_le S1 S3.
Proof.
  intros H1 H2 s k Hk Hw. destruct (H1 s k Hk Hw) as (k' & Hk' & Hw').
  by apply (H2 s k').
Qed.

Lemma wired_le_insert (S : list Socket) s k k' :
  S !! s = Some k -> (wired k -> wired k') -> wired_le S (<[s := k']> S).
Proof.
  intros Hk H s0 k0 Hk0 Hw. destruct (decide (s0 = s)) as [->|Hne].
  - exists k'. rewrite list_lookup_insert_eq by (by eapply lookup_lt_Some).
    split; [done|]. apply H. congruence.
  - exists k0. by rewrite list_lookup_insert_ne.
Qed.

Lemma wired_le_app S S' : wired_le S (S ++ S').
Proof.
  intros s k Hk Hw. exists k. split; [|done]. by apply lookup_app_l_Some.
Qed.

Lemma wired_le_alter (S : list Socket) s : wired_le S (alter set_handlers s S).
Proof.
  intros s0 k0 Hk0 Hw. destruct (decide (s0 = s)) as [->|Hne].
  - exists (set_handlers k0). rewrite list_lookup_alter_eq, Hk0.
    split; [done|]. by destruct Hw as (_ & _ & ?).
  - exists k0. by rewrite list_lookup_alter_ne.
Qed.

Lemma wired_set_onerror a k : wired k -> wired (set_onerror a k).
Proof. done. Qed.

Lemma wired_set_onopen a k : wired k -> wired (set_onopen a k).
Proof. done. Qed.

Lemma wired_set_readyState r k :
  r <> CONNECTING -> wired k -> wired (set_readyState r k).
Proof. intros Hr (? & ? & _). done. Qed.

Lemma tame_refl st : tame st st.
Proof. repeat split; auto using wired_le_refl. Qed.

Lemma tame_trans st st1 st2 : tame st st1 -> tame st1 st2 -> tame st st2.
Proof.
  intros (Hw & Hs & Hl & Hp) (Hw' & Hs' & Hl' & Hp'). repeat split.
  - congruence.
  - by eapply wired_le_trans.
  - congruence.
  - destruct Hp as [Hp|Hp]; [|by right].
    destruct Hp' as [Hp'|Hp']; [left|right]; congruence.
Qed.

Lemma tame_link st st' : link st' = link st -> tame st st'.
Proof.
  unfold link. intros H. injection H as Hp Hw Hs Hl.
  repeat split; auto. rewrite Hs. apply wired_le_refl.
Qed.

Lemma tame_link_r st st' st'' :
  link st'' = link st' -> tame st st' -> tame st st''.
Proof. intros H H'. eapply tame_trans; [exact H'|]. by apply tame_link. Qed.

Lemma tame_link_l st st' st'' :
  link st' = link st -> tame st' st'' -> tame st st''.
Proof. intros H H'. eapply tame_trans; [|exact H']. by apply tame_link. Qed.

Lemma tame_set_sockets S st :
  wired_le (sockets st) S -> tame st (set_sockets S st).
Proof. intros H. repeat split; auto. Qed.

Lemma link_emit e st :
  match e with ConnectionStatus _ => False | _ => True end ->
  link (emit e st) = link st.
Proof.
  intros H. unfold link, emit. simpl. rewrite statuses_app.
  destruct e; try done; simpl; by rewrite app_nil_r.
Qed.

Lemma link_await r t st : link (await r t st) = link st.
Proof.
  unfold await. destruct r as [|e|a]; [done|by apply link_emit|].
  destruct (promise_of a st) as [[]|]; try done. by apply link_emit.
Qed.

Lemma link_res a st : link (res a st) = link st.
Proof.
  unfold res. destruct (attempts st !! a) as [x|]; [|done].
  by destruct (att_promise x).
Qed.

Lemma link_rej a st : link (rej a st) = link st.
Proof.
  unfold rej. destruct (attempts st !! a) as [x|]; [|done].
  destruct (att_promise x); try done. unfold link. simpl.
  by rewrite statuses_app, statuses_rejected, app_nil_r.
Qed.

Lemma link_registerHandler c f st : link (registerHandler c f st) = link st.
Proof. unfold registerHandler. by destruct (handler st !! c). Qed.

Lemma link_unregisterHandler c f st :
  link (unregisterHandler c f st) = link st.
Proof. unfold unregisterHandler. by destruct (handler st !! c). Qed.

Lemma link_handleMessage c p st : link (handleMessage c p st) = link st.
Proof.
  unfold handleMessage. destruct (handler st !! c) as [l|]; [|done].
  revert st. induction l as [|h l IH]; intros st; simpl; [done|].
  rewrite IH. by apply link_emit.
Qed.

Lemma tame_connect d r st : ws st = None -> tame st (snd (connect d r st)).
Proof.
  intros Hw. unfold connect. destruct (closed st); [apply tame_refl|].
  destruct (connectingPromise st); [apply tame_refl|]. simpl.
  repeat split; auto using wired_le_refl. simpl.
  by rewrite statuses_app, app_nil_r.
Qed.

Lemma tame_lazyInit st : tame st (snd (lazyInit st)).
Proof.
  unfold lazyInit. destruct (ws st) eqn:Hw; [apply tame_refl|].
  destruct (connectingPromise st); [apply tame_refl|]. by apply tame_connect.
Qed.

Lemma tame_awaiting_init t k st :
  tame st (let '(r, st1) := lazyInit st in await r (mkTask t k) st1).
Proof.
  pose proof (tame_lazyInit st) as H.
  destruct (lazyInit st) as [r st1]. simpl in H.
  eapply tame_link_r; [apply link_await|exact H].
Qed.

Lemma tame_send t c p ty k st : tame st (send t c p ty k st).
Proof. apply tame_awaiting_init. Qed.

Lemma tame_reconnect_loop t arr idx st : tame st (reconnect_loop t arr idx st).
Proof.
  unfold reconnect_loop. case_match; [apply tame_send|].
  by apply tame_link, link_emit.
Qed.

Lemma tame_handleReconnect st : tame st (handleReconnect st).
Proof.
  unfold handleReconnect. eapply tame_link_l; [|apply tame_reconnect_loop].
  done.
Qed.

Lemma tame_after_send t k st : tame st (after_send t k st).
Proof.
  destruct k; simpl; try apply tame_reconnect_loop;
    apply tame_link; rewrite link_emit by done; done.
Qed.

Lemma tame_ws_close s st : tame st (ws_close s st).
Proof.
  unfold ws_close. destruct (sockets st !! s) as [k|] eqn:Hk;
    [|apply tame_refl].
  eapply tame_link_r; [by apply link_emit|].
  destruct (readyState k); try apply tame_refl;
    apply tame_set_sockets;
    (eapply wired_le_insert; [done|by apply wired_set_readyState]).
Qed.

Lemma tame_close_finish t st : tame st (close_finish t st).
Proof.
  unfold close_finish. eapply tame_link_r; [by apply link_emit|].
  destruct (ws st); [apply tame_ws_close|apply tame_refl].
Qed.

Lemma tame_resume t st : tame st (resume t st).
Proof.
  unfold resume.
  destruct (task_cont t) as [c fn|c fn|c|e k|e k|k|].
  - case_match.
    + apply tame_link. rewrite link_emit by done.
      destruct fn; [apply link_registerHandler|done].
    + eapply tame_link_l; [|apply tame_send].
      destruct fn; [apply link_registerHandler|done].
  - case_match.
    + apply tame_link. rewrite link_emit by done.
      destruct fn; [apply link_unregisterHandler|done].
    + eapply tame_link_l; [|apply tame_send].
      destruct fn; [apply link_unregisterHandler|done].
  - eapply tame_link_l; [|apply tame_send]. done.
  - apply tame_link. case_match; [|by apply link_emit].
    change (link (emit (WsSend n e) st) = link st). by apply link_emit.
  - apply tame_link. destruct k; try done; by apply link_emit.
  - apply tame_after_send.
  - apply tame_close_finish.
Qed.

Lemma tame_call op st : tame st (call op st).
Proof.
  unfold call. destruct op.
  1-4: eapply tame_link_l; [|apply tame_awaiting_init]; done.
  unfold close. cbv zeta.
  change (connectingPromise (set_closed true _)) with (connectingPromise st).
  destruct (connectingPromise st).
  - apply tame_link. by rewrite link_await.
  - eapply tame_link_l; [|apply tame_close_finish]. done.
Qed.

Lemma tame_retryConnect now st : ws st = None -> tame st (retryConnect now st).
Proof.
  intros Hw. unfold retryConnect. destruct (closed st); [apply tame_refl|].
  case_match; [apply tame_refl|].
  eapply tame_link_l; [|by apply tame_connect]. done.
Qed.

(** The invariant under the three kinds of steps. *)
Lemma linked_tame st st' : tame st st' -> linked st -> linked st'.
Proof.
  intros (Hw & Hs & Hl & Hp) (H1 & H2 & H3). split; [|split].
  - intros a Ha. rewrite Hw. destruct Hp as [Hp|Hp]; [|done].
    apply (H1 a). congruence.
  - intros s Hws. rewrite Hw in Hws. destruct (H2 s Hws) as (k & Hk & Hkw).
    by apply (Hs s k).
  - unfold signals_match in *. by rewrite Hw, Hl.
Qed.

Lemma linked_connected st s k :
  ws st = Some s -> connectingPromise st = None ->
  sockets st !! s = Some k -> wired k ->
  last (statuses (log st)) = Some true -> linked st.
Proof.
  intros Hw Hp Hk Hkw Hl. split; [|split].
  - intros a Ha. congruence.
  - intros s0 Hs0. exists k. split; [congruence|done].
  - unfold signals_match. by rewrite Hw.
Qed.

Lemma linked_disconnected st :
  ws st = None -> last (statuses (log st)) <> Some true -> linked st.
Proof.
  intros Hw Hl. split; [|split].
  - by intros a _.
  - intros s Hs. congruence.
  - unfold signals_match. by rewrite Hw.
Qed.

Lemma link_inv st p w S L :
  link st = (p, w, S, L) ->
  connectingPromise st = p /\ ws st = w /\ sockets st = S /\
  statuses (log st) = L.
Proof. unfold link. intros H. injection H. intros. repeat split; assumption. Qed.

Lemma link_awaiting_init_connected t k st s :
  ws st = Some s ->
  link (let '(r, st1) := lazyInit st in await r (mkTask t k) st1) = link st.
Proof. intros H. rewrite (lazyInit_connected _ _ H). apply link_await. Qed.

Lemma link_handleReconnect st s :
  ws st = Some s -> link (handleReconnect st) = link st.
Proof.
  intros H. unfold handleReconnect, reconnect_loop.
  case_match; [|by rewrite link_emit].
  unfold send. by rewrite (link_awaiting_init_connected _ _ _ s).
Qed.

(** [runOnSuccess], when it runs, establishes the link. *)
Lemma link_runOnSuccess a st x s :
  attempts st !! a = Some x -> att_promiseDone x = false ->
  att_phase x = Wired s ->
  link (runOnSuccess a st) =
  (None, Some s, alter set_handlers s (sockets st),
   statuses (log st) ++ [true]).
Proof.
  intros Hx Hd Hw. unfold runOnSuccess. rewrite Hx, Hd, Hw. cbv zeta.
  match goal with
  | |- link (if _ then handleReconnect (res a ?z) else _) = _ =>
      pose proof (link_res a z) as Hres; transitivity (link (res a z))
  end.
  - destruct (att_isReconnect x); [|done].
    apply (link_handleReconnect _ s).
    by destruct (link_inv _ _ _ _ _ Hres) as (_ & ? & _).
  - rewrite Hres. unfold link. simpl. unfold triggerConnectionStatusEvent, emit.
    simpl. by rewrite statuses_app.
Qed.

Lemma linked_runOnSuccess a st :
  (forall x s, attempts st !! a = Some x -> att_phase x = Wired s ->
     exists k, sockets st !! s = Some k /\ readyState k <> CONNECTING) ->
  linked st -> linked (runOnSuccess a st).
Proof.
  intros Hs Hl. destruct (attempts st !! a) as [x|] eqn:Hx.
  2:{ rewrite runOnSuccess_skip; [done|by rewrite Hx]. }
  destruct (att_promiseDone x) eqn:Hd.
  { rewrite runOnSuccess_skip; [done|rewrite Hx; by left]. }
  destruct (att_phase x) as [|s|] eqn:Hw.
  1,3: rewrite runOnSuccess_skip; [done|rewrite Hx; right; congruence].
  destruct (link_inv _ _ _ _ _ (link_runOnSuccess a st x s Hx Hd Hw))
    as (Hp & Hws & Hso & Hst).
  destruct (Hs x s eq_refl Hw) as (k & Hk & Hr).
  apply (linked_connected _ s (set_handlers k)); try done.
  - by rewrite Hso, list_lookup_alter_eq, Hk.
  - rewrite Hst. apply last_snoc.
Qed.

Lemma linked_wire a s st : linked st -> linked (wire a s st).
Proof.
  intros Hl. unfold wire. destruct (attempts st !! a) as [x|] eqn:Hx; [|done].
  destruct (sockets st !! s) as [k|] eqn:Hk; [|done]. cbv zeta.
  match goal with
  | |- linked (if _ then runOnSuccess a ?z else _) =>
      assert (tame st z) as H1
  end.
  { eapply tame_trans; [|apply tame_set_sockets].
    - by apply tame_link.
    - simpl. by eapply wired_le_insert. }
  destruct (ReadyState_eqb (readyState k) OPEN) eqn:Hr.
  - apply linked_runOnSuccess; [|by eapply linked_tame].
    simpl. intros x0 s0 Hx0 Hw0.
    rewrite list_lookup_insert_eq in Hx0 by (by eapply lookup_lt_Some).
    injection Hx0 as <-. simpl in Hw0. injection Hw0 as <-.
    exists (set_onerror a k).
    rewrite list_lookup_insert_eq by (by eapply lookup_lt_Some).
    split; [done|]. simpl. by destruct (readyState k).
  - eapply linked_tame; [|exact Hl]. repeat split; auto. simpl.
    by eapply wired_le_insert.
Qed.

Lemma linked_timer a st : linked st -> linked (timer_fired a st).
Proof.
  intros Hl. unfold timer_fired.
  destruct (attempts st !! a) as [x|] eqn:Hx; [|done].
  destruct (att_phase x); try done.
  destruct (socket (config st)) as [s|]; [by apply linked_wire|].
  destruct (url (config st)) as [u|].
  - apply linked_wire. eapply linked_tame; [|exact Hl].
    eapply tame_link_r; [by apply link_emit|].
    apply tame_set_sockets, wired_le_app.
  - eapply linked_tame; [|exact Hl]. by apply tame_link.
Qed.

Lemma linked_fire_onclose s now st :
  linked st -> linked (fire_onclose s now st).
Proof.
  intros Hl. unfold fire_onclose. destruct (sockets st !! s) as [k|]; [|done].
  destruct (onclose k); [|done]. unfold socket_onclose.
  eapply linked_tame; [by apply tame_retryConnect|].
  apply linked_disconnected; [done|].
  unfold triggerConnectionStatusEvent. simpl.
  rewrite statuses_app. simpl. by rewrite last_snoc.
Qed.

Lemma linked_onerror a now st :
  (forall x, attempts st !! a = Some x -> att_promiseDone x = false ->
     ws st = None) ->
  linked st -> linked (socket_onerror a now st).
Proof.
  intros Hw Hl. unfold socket_onerror.
  destruct (attempts st !! a) as [x|] eqn:Hx; [|done].
  destruct (att_promiseDone x) eqn:Hd; [done|].
  specialize (Hw x eq_refl Hd).
  eapply linked_tame; [|exact Hl].
  eapply tame_trans; [|apply tame_retryConnect].
  - eapply tame_link_r; [apply link_rej|]. repeat split; auto using wired_le_refl.
  - unfold link in *. pose proof (link_rej a (set_connectingPromise None st)) as H.
    unfold link in H. injection H as _ H _ _. by rewrite H.
Qed.

(** The slot holds the attempt whose closure the browser is about to
    call, unless that attempt is done. *)
Lemma closure_unlinked st s k a x :
  single_flight st -> one_link st ->
  sockets st !! s = Some k -> readyState k <> CLOSED ->
  onerror k = Some a \/ onopen k = Some a ->
  attempts st !! a = Some x -> att_promiseDone x = false -> ws st = None.
Proof.
  intros Hsf Hj Hk Hr Hc Hx Hd.
  destruct (sf_closures _ _ _ Hsf s k a Hk (conj Hr Hc)) as (x' & Hx' & Hf & _).
  assert (x' = x) as -> by congruence.
  apply (Hj a). apply (sf_pending _ _ _ Hsf a x Hx).
  destruct (att_promise x) eqn:Hp; try done.
  pose proof (sf_done _ _ _ Hsf a x Hx Hp). congruence.
Qed.

Theorem linked_step ev st :
  single_flight st -> linked st -> linked (step ev st).
Proof.
  intros Hsf Hl. destruct ev as [op| |a|s|s now|s now|s c p]; simpl.
  - eapply linked_tame; [apply tame_call|done].
  - destruct (ready st) as [|t r]; [done|].
    eapply linked_tame; [|exact Hl].
    eapply tame_link_l; [|apply tame_resume]. done.
  - by apply linked_timer.
  - destruct (sockets st !! s) as [k|] eqn:Hk; [|done].
    destruct (readyState k) eqn:Hr; try done.
    assert (linked (set_sockets (<[s:=set_readyState OPEN k]> (sockets st)) st))
      as Hl1.
    { eapply linked_tame; [|exact Hl]. apply tame_set_sockets.
      eapply wired_le_insert; [done|]. by apply wired_set_readyState. }
    destruct (onopen k) as [a|] eqn:Ho; [|done].
    apply linked_runOnSuccess; [|done]. simpl. intros x s0 Hx Hw.
    destruct (sf_closures _ _ _ Hsf s k a Hk) as (x' & Hx' & _ & Hw').
    { split; [by rewrite Hr|by right]. }
    assert (s0 = s) as -> by congruence.
    exists (set_readyState OPEN k).
    by rewrite list_lookup_insert_eq by (by eapply lookup_lt_Some).
  - destruct (sockets st !! s) as [k|] eqn:Hk; [|done].
    assert (readyState k <> CLOSED ->
      linked (fire_onclose s now
        match onerror k with
        | Some a =>
            socket_onerror a now
              (set_sockets (<[s:=set_readyState CLOSED k]> (sockets st)) st)
        | None => set_sockets (<[s:=set_readyState CLOSED k]> (sockets st)) st
        end)) as Hgo.
    { intros Hr. apply linked_fire_onclose.
      assert (linked (set_sockets (<[s:=set_readyState CLOSED k]> (sockets st)) st))
        as Hl1.
      { eapply linked_tame; [|exact Hl]. apply tame_set_sockets.
        eapply wired_le_insert; [done|]. by apply wired_set_readyState. }
      destruct (onerror k) as [a|] eqn:Ho; [|done].
      apply linked_onerror; [|done]. simpl. intros x Hx Hd.
      destruct Hl as (Hj & _). by eapply (closure_unlinked st s k a x); auto. }
    destruct (readyState k); try done; by apply Hgo.
  - destruct (sockets st !! s) as [k|] eqn:Hk; [|done].
    assert (linked (fire_onclose s now
      (set_sockets (<[s:=set_readyState CLOSED k]> (sockets st)) st))) as Hgo.
    { apply linked_fire_onclose. eapply linked_tame; [|exact Hl].
      apply tame_set_sockets.
      eapply wired_le_insert; [done|]. by apply wired_set_readyState. }
    destruct (readyState k); try done.
  - destruct (sockets st !! s) as [k|]; [|done].
    destruct (readyState k); try done;
      (destruct (onmessage k); [|done];
       eapply linked_tame; [|exact Hl]; apply tame_link, link_handleMessage).
Qed.

Lemma linked_new cfg now pre : linked (new_TubesClient cfg now pre).
Proof. by apply linked_disconnected. Qed.

Lemma linked_run evs st :
  single_flight st -> linked st -> linked (run evs st).
Proof.
  revert st. induction evs as [|ev evs IH]; intros st Hsf Hl; [done|].
  simpl. apply IH; [by apply single_flight_step|by apply linked_step].
Qed.

Lemma linked_history cfg t0 pre evs :
  linked (run evs (new_TubesClient cfg t0 pre)).
Proof. apply linked_run; [apply single_flight_new|apply linked_new]. Qed.

(** ** Invariants of the link *)


(** X10.  In every history of a client, the transport it holds is a
    socket on which it has installed its message and close callbacks,
    and which is past the connecting state; [send] therefore never
    writes to a transport that is still connecting. *)
Theorem held_transport_is_wired cfg t0 pre evs :
  holds_wired_transport (run evs (new_TubesClient cfg t0 pre)).
Proof. by destruct (linked_history cfg t0 pre evs) as (_ & H & _). Qed.

(** X11.  In every history of a client, the connectivity signals on
    [window] tell whether it holds a transport: it holds one exactly
    when the last signal dispatched is [true]. *)
Theorem status_events_track_the_transport cfg t0 pre evs :
  signals_match (run evs (new_TubesClient cfg t0 pre)).
Proof. by destruct (linked_history cfg t0 pre evs) as (_ & _ & H). Qed.

(** ** Timers, attempts and constructions *)

Lemma paced_refl st : paced st st.
Proof.
  split; [done|]. split; [done|]. exists [], [].
  rewrite !app_nil_r. simpl. repeat split; auto with lia.
Qed.

Lemma paced_trans st st1 st2 : paced st st1 -> paced st1 st2 -> paced st st2.
Proof.
  intros (Hg & Hc & T & N & Ht & Ha & Hct & Hn & Hs)
         (Hg' & Hc' & T' & N' & Ht' & Ha' & Hct' & Hn' & Hs').
  split; [congruence|]. split; [auto|]. exists (T ++ T'), (N ++ N').
  rewrite Ht', Ht, Hn', Hn, Ha', Ha, !length_app, <- !app_assoc.
  repeat split; auto with lia.
  - intros H. by rewrite (Hct H), (Hct' (Hc H)).
  - intros H. rewrite (Hs H). rewrite Hg in Hs'. by rewrite (Hs' H).
Qed.

Lemma paced_quiet st st' c i g p w d S A T N :
  core st' = (c, i, g, p, w, d, S, A, T, N) ->
  (closed st = true -> c = true) -> g = config st ->
  length A = length (attempts st) ->
  T = timeouts (log st) -> N = constructed (log st) ->
  paced st st'.
Proof.
  intros H Hc -> Hl -> ->.
  apply core_inv in H as (Hc' & Hi & Hg & Hp' & Hw & Hd' & Hs & Ha & Ht & Hn).
  split; [done|]. split; [intros H; rewrite Hc'; auto|]. exists [], [].
  rewrite !app_nil_r, Ha, Hl. simpl. repeat split; auto with lia.
Qed.

Lemma paced_core st st' : core st' = core st -> paced st st'.
Proof. intros H. by eapply paced_quiet. Qed.

Lemma paced_core_r st st' st'' :
  core st'' = core st' -> paced st st' -> paced st st''.
Proof. intros H H'. eapply paced_trans; [exact H'|]. by apply paced_core. Qed.

Lemma paced_connect d r st : paced st (snd (connect d r st)).
Proof.
  destruct (closed st) eqn:Hc.
  { rewrite connect_closed by done. apply paced_refl. }
  destruct (connectingPromise st) as [a|] eqn:Hp.
  { rewrite (connect_shared _ _ _ a) by done. apply paced_refl. }
  pose proof (core_connect_new d r st Hc Hp) as H.
  apply core_inv in H as (Hc' & Hi & Hg & Hp' & Hw & Hd' & Hs & Ha & Ht & Hn).
  split; [done|]. split; [congruence|]. exists [d], [].
  rewrite Ht, Hn, Ha, length_app, app_nil_r. simpl.
  repeat split; auto. congruence.
Qed.

Lemma paced_calm st st' : calm st st' -> paced st st'.
Proof.
  intros [H|H]; [by apply paced_core|].
  eapply paced_core_r; [exact H|]. apply paced_connect.
Qed.

Lemma paced_retryConnect now st : paced st (retryConnect now st).
Proof.
  unfold retryConnect. destruct (closed st); [apply paced_refl|].
  case_match; [apply paced_refl|].
  eapply paced_trans; [|apply paced_connect]. by eapply paced_quiet.
Qed.

Lemma length_settle p a A : length (settle p a A) = length A.
Proof.
  unfold settle. destruct (A !! a) as [x|]; [|done].
  destruct (att_promise x); try done. by rewrite length_insert.
Qed.

Lemma paced_res a st : paced st (res a st).
Proof.
  eapply paced_quiet; [apply core_res|..]; auto using length_settle.
Qed.

Lemma paced_rej a st : paced st (rej a st).
Proof.
  eapply paced_quiet; [apply core_rej|..]; auto using length_settle.
Qed.

Lemma paced_runOnSuccess a st : paced st (runOnSuccess a st).
Proof.
  destruct (attempts st !! a) as [x|] eqn:Hx.
  2:{ rewrite runOnSuccess_skip; [apply paced_refl|by rewrite Hx]. }
  destruct (att_promiseDone x) eqn:Hd.
  { rewrite runOnSuccess_skip; [apply paced_refl|rewrite Hx; by left]. }
  destruct (att_phase x) as [|s|] eqn:Hw.
  1,3: rewrite runOnSuccess_skip;
    [apply paced_refl|rewrite Hx; right; congruence].
  eapply paced_quiet; [by eapply core_runOnSuccess|..]; auto.
  by rewrite length_settle, length_insert.
Qed.

Lemma paced_set_sockets S st : paced st (set_sockets S st).
Proof. by eapply paced_quiet. Qed.

Lemma paced_onerror a now st : paced st (socket_onerror a now st).
Proof.
  unfold socket_onerror. destruct (attempts st !! a) as [x|]; [|apply paced_refl].
  destruct (att_promiseDone x); [apply paced_refl|].
  eapply paced_trans; [|apply paced_retryConnect].
  eapply paced_trans; [|apply paced_rej]. by eapply paced_quiet.
Qed.

Lemma paced_onclose s now st : paced st (fire_onclose s now st).
Proof.
  unfold fire_onclose. destruct (sockets st !! s) as [k|]; [|apply paced_refl].
  destruct (onclose k); [|apply paced_refl]. unfold socket_onclose.
  eapply paced_trans; [|apply paced_retryConnect].
  eapply paced_quiet; [reflexivity|..]; auto; simpl.
  - rewrite timeouts_app. simpl. by rewrite app_nil_r.
  - rewrite constructed_app. simpl. by rewrite app_nil_r.
Qed.

Lemma paced_wire a s st : paced st (wire a s st).
Proof.
  unfold wire. destruct (attempts st !! a) as [x|] eqn:Hx; [|apply paced_refl].
  destruct (sockets st !! s) as [k|] eqn:Hk; [|apply paced_refl]. cbv zeta.
  match goal with
  | |- paced st (if _ then runOnSuccess a ?z else _) =>
      assert (paced st z) as H
  end.
  { eapply paced_quiet; [reflexivity|..]; auto. simpl.
    by rewrite length_insert. }
  destruct (ReadyState_eqb (readyState k) OPEN).
  - eapply paced_trans; [exact H|apply paced_runOnSuccess].
  - eapply paced_trans; [exact H|apply paced_set_sockets].
Qed.

Lemma paced_timer a st : paced st (timer_fired a st).
Proof.
  unfold timer_fired. destruct (attempts st !! a) as [x|] eqn:Hx;
    [|apply paced_refl].
  destruct (att_phase x) eqn:Hph; try apply paced_refl.
  destruct (socket (config st)) as [s|] eqn:Hs; [by apply paced_wire|].
  destruct (url (config st)) as [u|].
  - eapply paced_trans; [|apply paced_wire].
    split; [done|]. split; [done|]. exists [], [length (sockets st)].
    simpl. rewrite timeouts_app, constructed_app, app_nil_r. simpl.
    rewrite app_nil_r. repeat split; auto with lia.
    rewrite Hs. by intros [? ?].
  - eapply paced_quiet; [reflexivity|..]; auto. simpl.
    by rewrite length_insert.
Qed.

Lemma paced_close_finish t st : paced st (close_finish t st).
Proof.
  unfold close_finish. eapply paced_core_r; [by apply core_emit|].
  destruct (ws st) as [s|]; [|apply paced_refl]. unfold ws_close.
  destruct (sockets st !! s) as [k|]; [|apply paced_refl].
  eapply paced_core_r; [by apply core_emit|].
  destruct (readyState k); try apply paced_refl; apply paced_set_sockets.
Qed.

Lemma paced_resume t st : paced st (resume t st).
Proof.
  destruct (task_cont t) eqn:Hk.
  7: unfold resume; rewrite Hk; by apply paced_close_finish.
  all: apply paced_calm, calm_resume; by rewrite Hk.
Qed.

Lemma paced_call op st : paced st (call op st).
Proof.
  destruct op.
  5:{ unfold call, close. cbv zeta.
      change (connectingPromise (set_closed true _))
        with (connectingPromise st).
      assert (paced st (set_closed true (set_next_task (S (next_task st)) st)))
        as H by (by eapply paced_quiet).
      destruct (connectingPromise st).
      - eapply paced_core_r; [apply core_await|]. exact H.
      - eapply paced_trans; [exact H|apply paced_close_finish]. }
  all: by apply paced_calm, calm_call.
Qed.

Lemma paced_step ev st : paced st (step ev st).
Proof.
  destruct ev as [op| |a|s|s now|s now|s c p]; simpl.
  - apply paced_call.
  - destruct (ready st) as [|t r]; [apply paced_refl|].
    eapply paced_trans; [|apply paced_resume]. by apply paced_core.
  - apply paced_timer.
  - destruct (sockets st !! s) as [k|]; [|apply paced_refl].
    destruct (readyState k); try apply paced_refl.
    destruct (onopen k).
    + eapply paced_trans; [apply paced_set_sockets|apply paced_runOnSuccess].
    + apply paced_set_sockets.
  - destruct (sockets st !! s) as [k|]; [|apply paced_refl].
    destruct (readyState k); try apply paced_refl;
      (eapply paced_trans; [|apply paced_onclose];
       destruct (onerror k);
       [eapply paced_trans; [apply paced_set_sockets|apply paced_onerror]
       |apply paced_set_sockets]).
  - destruct (sockets st !! s) as [k|]; [|apply paced_refl].
    destruct (readyState k); try apply paced_refl;
      (eapply paced_trans; [apply paced_set_sockets|apply paced_onclose]).
  - destruct (sockets st !! s) as [k|]; [|apply paced_refl].
    destruct (readyState k); try apply paced_refl;
      (destruct (onmessage k); [|apply paced_refl];
       apply paced_core, core_handleMessage).
Qed.

Lemma paced_run evs st : paced st (run evs st).
Proof.
  revert st. induction evs as [|ev evs IH]; intros st; [apply paced_refl|].
  simpl. eapply paced_trans; [apply paced_step|apply IH].
Qed.

(** X12.  In every history of a client, it has set exactly one timer
    per connection attempt it has started: [setTimeout] is called by an
    attempt that starts, and by nothing else. *)
Theorem one_timer_per_attempt cfg t0 pre evs :
  let st := run evs (new_TubesClient cfg t0 pre) in
  length (timeouts (log st)) = length (attempts st).
Proof.
  intros st.
  destruct (paced_run evs (new_TubesClient cfg t0 pre))
    as (_ & _ & T & N & Ht & Ha & _).
  fold st in Ht, Ha. by rewrite Ht, Ha.
Qed.

(** X13.  From the moment the closed flag is set, whatever happens to
    the client -- calls, continuations, timers, socket events -- it
    stays closed, starts no connection attempt and sets no timer. *)
Theorem closed_client_starts_nothing st evs :
  closed st = true ->
  let st' := run evs st in
  closed st' = true /\ length (attempts st') = length (attempts st) /\
  timeouts (log st') = timeouts (log st).
Proof.
  intros Hc st'.
  destruct (paced_run evs st) as (_ & Hc' & T & N & Ht & Ha & HT & _).
  fold st' in Hc', Ht, Ha. rewrite Ht, Ha, (HT Hc), app_nil_r. simpl.
  repeat split; auto with lia.
Qed.

Lemma closed_client_starts_nothing_witness :
  timeouts (log (run [SockClose 0 7; Call (Subscribe "a" None); Tick]
                   closed_client)) = timeouts (log closed_client).
Proof.
  destruct (closed_client_starts_nothing closed_client
              [SockClose 0%nat 7; Call (Subscribe "a" None); Tick])
    as (_ & _ & H); [reflexivity|].
  exact H.
Defined.

(** X14.  A client that was given its transport ([config.socket]) never
    constructs a [WebSocket], in any history: every attempt, the retries
    included, takes the transport it was given. *)
Theorem given_transport_constructs_none cfg t0 pre evs :
  is_Some (socket cfg) ->
  constructed (log (run evs (new_TubesClient cfg t0 pre))) = [].
Proof.
  intros Hs.
  destruct (paced_run evs (new_TubesClient cfg t0 pre))
    as (_ & _ & T & N & _ & _ & _ & Hn & HN).
  rewrite Hn, HN; [done|]. simpl. unfold spread. by destruct (socket cfg).
Qed.

Lemma given_transport_constructs_none_witness :
  constructed (log (run [Call (Send "a" None None); TimerFire 0; Tick; Tick;
                         SockClose 0 9; TimerFire 1] given_client)) = [].
Proof.
  apply (given_transport_constructs_none given_config 0 [OPEN]).
  by exists 0%nat.
Defined.

(** ** Connecting, failing and closing, step by step *)

Lemma call_offline op st :
  op <> Close -> idle_offline st ->
  call op st =
  let a := length (attempts st) in
  set_waiting [(a, mkTask (next_task st) (first_cont op))]
    (set_connectingPromise (Some a)
       (emit (SetTimeout a 0)
          (set_attempts
             (attempts st ++ [mkAttempt false false Sleeping Pending])
             (set_next_task (S (next_task st)) st)))).
Proof.
  intros Hop (Hc & Hw & Hp & Hr & Hwt).
  unfold call. destruct op; try done;
    unfold subscribe, unsubscribe, unsubscribeAll, send, lazyInit, connect;
    cbn [ws connectingPromise closed set_next_task]; rewrite Hw, Hp, Hc;
    unfold await, promise_of;
    cbn [attempts set_connectingPromise emit set_log set_attempts];
    rewrite list_lookup_middle by done;
    cbn [fmap option_fmap option_map att_promise];
    cbn [waiting set_connectingPromise emit set_log set_attempts set_next_task];
    rewrite Hwt; reflexivity.
Qed.

Lemma insert_snoc {A} (l : list A) (x y : A) :
  <[length l := y]> (l ++ [x]) = l ++ [y].
Proof.
  rewrite insert_app_r_alt by lia. by rewrite Nat.sub_diag.
Qed.

(** The executor after its timer, for a client that builds its
    transport from [url]. *)
Lemma timer_builds a st x u :
  attempts st !! a = Some x -> att_phase x = Sleeping ->
  socket (config st) = None -> url (config st) = Some u ->
  let s := length (sockets st) in
  timer_fired a st =
  set_sockets (sockets st ++ [mkSocket CONNECTING (Some a) (Some a) false false])
    (set_attempts (<[a := set_phase (Wired s) x]> (attempts st))
       (emit (NewWebSocket s u) st)).
Proof.
  intros Hx Hph Hs Hu s. unfold timer_fired. rewrite Hx, Hph, Hs, Hu.
  unfold wire. cbn [attempts sockets emit set_log set_sockets].
  rewrite Hx, list_lookup_middle by done.
  cbn [readyState ReadyState_eqb]. cbv zeta.
  cbn [set_sockets set_attempts sockets attempts]. fold s.
  unfold set_onopen, set_onerror. simpl.
  unfold set_sockets, set_attempts. simpl. subst s. by rewrite insert_snoc.
Qed.

Lemma state_eq st st' :
  closed st = closed st' -> initTime st = initTime st' ->
  config st = config st' -> connectingPromise st = connectingPromise st' ->
  ws st = ws st' -> handler st = handler st' ->
  currentRetryDelay st = currentRetryDelay st' ->
  subscribedChannels st = subscribedChannels st' -> arrays st = arrays st' ->
  sockets st = sockets st' -> attempts st = attempts st' ->
  ready st = ready st' -> waiting st = waiting st' ->
  next_task st = next_task st' -> log st = log st' -> st = st'.
Proof. destruct st, st'. simpl. by intros -> -> -> -> -> -> -> -> -> -> -> -> -> -> ->. Qed.

(** The socket of a first attempt reports that it is open. *)
Lemma open_connects s st k a x :
  sockets st !! s = Some k -> readyState k = CONNECTING -> onopen k = Some a ->
  attempts st !! a = Some x -> att_promiseDone x = false ->
  att_phase x = Wired s -> att_promise x = Pending ->
  att_isReconnect x = false ->
  step (SockOpen s) st =
  set_ready (ready st ++ (snd <$> List.filter (waits_on a) (waiting st)))
    (set_waiting (List.filter (fun w => negb (waits_on a w)) (waiting st))
       (set_attempts
          (<[a := mkAttempt false true (Wired s) Fulfilled]> (attempts st))
          (set_connectingPromise None
             (emit (ConnectionStatus true)
                (set_ws (Some s)
                   (set_sockets
                      (<[s := mkSocket OPEN (onopen k) (onerror k) true true]>
                         (sockets st))
                      (set_currentRetryDelay 0 st))))))).
Proof.
  intros Hk Hr Ho Hx Hd Hph Hp Hre. cbn [step]. rewrite Hk, Hr, Ho.
  unfold runOnSuccess. cbn [attempts set_sockets]. rewrite Hx, Hd, Hph, Hre.
  cbv zeta. unfold res, triggerConnectionStatusEvent, addSocketHandler.
  cbn [attempts ready waiting sockets set_connectingPromise emit set_log
       set_ws set_sockets set_currentRetryDelay set_attempts].
  rewrite list_lookup_insert_eq by (by eapply lookup_lt_Some).
  cbn [att_promise set_promiseDone]. rewrite Hp.
  rewrite list_insert_insert_eq.
  assert (alter set_handlers s (<[s:=set_readyState OPEN k]> (sockets st)) =
          <[s := mkSocket OPEN (onopen k) (onerror k) true true]> (sockets st))
    as ->.
  { apply list_eq. intros i. destruct (decide (i = s)) as [->|Hne].
    - rewrite list_lookup_alter_eq.
      by rewrite !list_lookup_insert_eq by (by eapply lookup_lt_Some).
    - rewrite list_lookup_alter_ne by done.
      by rewrite !list_lookup_insert_ne. }
  unfold set_promise, set_promiseDone. simpl. rewrite Hre, Hph.
  apply state_eq; try reflexivity.
  cbn [sockets set_ready set_waiting set_attempts set_connectingPromise emit
       set_log set_ws set_sockets set_currentRetryDelay]. by rewrite Ho.
Qed.

(** X15.  The first call of a public method other than [close()] on an
    open client without transport, attempt or task, configured with a
    [url], connects lazily: the call starts one attempt with a timer of
    0 ms; when the timer fires one [WebSocket] is constructed for the
    configured url; when that socket opens the client takes it as its
    transport, installs its callbacks, signals [true], empties the
    promise slot and resumes the call.  Nothing is written and no
    subscription is replayed on the way. *)
Theorem first_call_connects st op u :
  op <> Close -> idle_offline st ->
  socket (config st) = None -> url (config st) = Some u ->
  let a := length (attempts st) in
  let s := length (sockets st) in
  let st' := run [Call op; TimerFire a; SockOpen s] st in
  ws st' = Some s /\ connectingPromise st' = None /\
  log st' =
    log st ++ [SetTimeout a 0; NewWebSocket s u; ConnectionStatus true] /\
  sockets st' = sockets st ++ [mkSocket OPEN (Some a) (Some a) true true] /\
  ready st' = [mkTask (next_task st) (first_cont op)] /\ waiting st' = [] /\
  handler st' = handler st /\ subscribed st' = subscribed st.
Proof.
  intros Hop Hi Hs Hu a s st'. subst st'. unfold run. cbn [foldl].
  change (step (Call op) st) with (call op st).
  rewrite (call_offline op st Hop Hi). cbv zeta. fold a.
  destruct Hi as (Hc & Hw & Hp & Hr & Hwt).
  change (step (TimerFire a) ?z) with (timer_fired a z).
  erewrite (timer_builds a _ _ u); cycle 1.
  { cbn [attempts set_waiting set_connectingPromise emit set_log set_attempts].
    subst a. by apply list_lookup_middle. }
  { done. }
  { exact Hs. }
  { exact Hu. }
  cbv zeta.
  cbn [attempts sockets set_waiting set_connectingPromise emit set_log
       set_attempts set_next_task].
  fold s. subst a. rewrite insert_snoc. set (a := length (attempts st)).
  erewrite (open_connects s _ _ a); cycle 1.
  { cbn [sockets set_sockets]. subst s. by apply list_lookup_middle. }
  { done. }
  { done. }
  { cbn [attempts set_sockets set_attempts]. subst a.
    by apply list_lookup_middle. }
  { done. }
  { done. }
  { done. }
  { done. }
  cbn [ws connectingPromise log sockets ready waiting handler
       set_ready set_waiting set_attempts set_connectingPromise emit set_log
       set_ws set_sockets set_currentRetryDelay set_next_task onopen onerror].
  rewrite Hr. subst s. rewrite insert_snoc. unfold waits_on. cbn.
  rewrite Nat.eqb_refl. cbn. repeat split; try done.
  by rewrite <- !app_assoc.
Qed.

Lemma first_call_connects_witness :
  log (run [Call (Subscribe "a" (Some 1%nat)); TimerFire 0; SockOpen 0]
         example_client) =
  [SetTimeout 0 0; NewWebSocket 0 "ws://tubes"; ConnectionStatus true].
Proof.
  destruct (first_call_connects example_client (Subscribe "a" (Some 1%nat))
              "ws://tubes") as (_ & _ & H & _);
    [discriminate|by repeat split|reflexivity|reflexivity|].
  exact H.
Defined.

(** [runOnSuccess] of a first attempt. *)
Lemma runOnSuccess_first a st x s :
  attempts st !! a = Some x -> att_promiseDone x = false ->
  att_phase x = Wired s -> att_promise x = Pending ->
  att_isReconnect x = false ->
  runOnSuccess a st =
  set_ready (ready st ++ (snd <$> List.filter (waits_on a) (waiting st)))
    (set_waiting (List.filter (fun w => negb (waits_on a w)) (waiting st))
       (set_attempts
          (<[a := mkAttempt false true (Wired s) Fulfilled]> (attempts st))
          (set_connectingPromise None
             (emit (ConnectionStatus true)
                (set_ws (Some s)
                   (set_sockets (alter set_handlers s (sockets st))
                      (set_currentRetryDelay 0 st))))))).
Proof.
  intros Hx Hd Hph Hp Hre.
  unfold runOnSuccess. rewrite Hx, Hd, Hph, Hre.
  cbv zeta. unfold res, triggerConnectionStatusEvent, addSocketHandler.
  cbn [attempts ready waiting sockets set_connectingPromise emit set_log
       set_ws set_sockets set_currentRetryDelay set_attempts].
  rewrite list_lookup_insert_eq by (by eapply lookup_lt_Some).
  cbn [att_promise set_promiseDone]. rewrite Hp.
  rewrite list_insert_insert_eq.
  unfold set_promise, set_promiseDone. simpl. rewrite Hre, Hph.
  apply state_eq; reflexivity.
Qed.

(** X16.  A client that was given a transport which is already open
    does not wait for an [open] event: as soon as the timer of its first
    attempt fires it takes the transport, installs its callbacks,
    signals [true] and resumes the call; no [WebSocket] is
    constructed. *)
Theorem given_open_transport_connects_at_once st op s k :
  op <> Close -> idle_offline st ->
  socket (config st) = Some s ->
  sockets st !! s = Some k -> readyState k = OPEN ->
  let a := length (attempts st) in
  let st' := run [Call op; TimerFire a] st in
  ws st' = Some s /\ connectingPromise st' = None /\
  log st' = log st ++ [SetTimeout a 0; ConnectionStatus true] /\
  sockets st' =
    <[s := mkSocket OPEN (onopen k) (Some a) true true]> (sockets st) /\
  ready st' = [mkTask (next_task st) (first_cont op)] /\ waiting st' = [].
Proof.
  intros Hop Hi Hs Hk Hro a st'. subst st'. unfold run. cbn [foldl].
  change (step (Call op) st) with (call op st).
  rewrite (call_offline op st Hop Hi). cbv zeta. fold a.
  destruct Hi as (Hc & Hw & Hp & Hr & Hwt).
  change (step (TimerFire a) ?z) with (timer_fired a z).
  unfold timer_fired.
  cbn [attempts sockets config set_waiting set_connectingPromise emit set_log
       set_attempts set_next_task].
  subst a. rewrite list_lookup_middle by done. set (a := length (attempts st)).
  cbn [att_phase]. rewrite Hs. unfold wire.
  cbn [attempts sockets config set_waiting set_connectingPromise emit set_log
       set_attempts set_next_task].
  subst a. rewrite list_lookup_middle by done. set (a := length (attempts st)).
  rewrite Hk, Hro. cbn [ReadyState_eqb]. cbv zeta.
  erewrite (runOnSuccess_first a _ _ s); cycle 1.
  { cbn [attempts set_sockets set_attempts]. subst a. rewrite insert_snoc.
    by apply list_lookup_middle. }
  { done. }
  { done. }
  { done. }
  { done. }
  cbn [ws connectingPromise log sockets ready waiting handler
       set_ready set_waiting set_attempts set_connectingPromise emit set_log
       set_ws set_sockets set_currentRetryDelay set_next_task].
  rewrite Hr. unfold waits_on. cbn. rewrite Nat.eqb_refl. cbn.
  repeat split; try done.
  - by rewrite <- !app_assoc.
  - apply list_eq. intros i. destruct (decide (i = s)) as [->|Hne].
    + rewrite list_lookup_alter_eq.
      rewrite !list_lookup_insert_eq by (by eapply lookup_lt_Some).
      simpl. unfold set_handlers, set_onerror. simpl. by rewrite Hro.
    + rewrite list_lookup_alter_ne by done.
      by rewrite !list_lookup_insert_ne.
Qed.

Lemma given_open_transport_connects_at_once_witness :
  log (run [Call (Send "a" None None); TimerFire 0] given_client) =
  [SetTimeout 0 0; ConnectionStatus true].
Proof.
  destruct (given_open_transport_connects_at_once given_client
              (Send "a" None None) 0%nat (mkSocket OPEN None None false false))
    as (_ & _ & H & _);
    [discriminate|by repeat split|reflexivity|reflexivity|reflexivity|].
  exact H.
Defined.





(** X18.  [close()] does not abort a connection attempt in flight.  It
    sets the closed flag and waits for the attempt, touching neither the
    attempt nor its socket; when the socket opens the client still takes
    it as its transport and signals [true], and the continuation of
    [close()] becomes runnable; when that continuation runs on the open
    transport it asks the transport to close and resolves. *)
Theorem close_waits_for_the_attempt st s k a x :
  connectingPromise st = Some a ->
  sockets st !! s = Some k -> readyState k = CONNECTING -> onopen k = Some a ->
  attempts st !! a = Some x -> att_promiseDone x = false ->
  att_phase x = Wired s -> att_promise x = Pending ->
  att_isReconnect x = false ->
  let t := next_task st in
  let st1 := step (Call Close) st in
  let st2 := step (SockOpen s) st1 in
  (closed st1 = true /\ log st1 = log st /\
   connectingPromise st1 = Some a /\ sockets st1 = sockets st /\
   attempts st1 = attempts st /\
   waiting st1 = waiting st ++ [(a, mkTask t K_close)]) /\
  (closed st2 = true /\ ws st2 = Some s /\ connectingPromise st2 = None /\
   log st2 = log st ++ [ConnectionStatus true] /\
   mkTask t K_close ∈ ready st2) /\
  (forall z k', ws z = Some s -> sockets z !! s = Some k' ->
     readyState k' = OPEN ->
     log (resume (mkTask t K_close) z) = log z ++ [WsClose s; Resolved t] /\
     sockets (resume (mkTask t K_close) z) =
       <[s := set_readyState CLOSING k']> (sockets z)).
Proof.
  intros Hp Hk Hrs Ho Hx Hd Hph Hpr Hre t st1 st2.
  assert (st1 =
    set_waiting (waiting st ++ [(a, mkTask t K_close)])
      (set_closed true (set_next_task (S t) st))) as H1.
  { subst st1. cbn [step]. unfold call, close. cbv zeta.
    cbn [connectingPromise set_closed set_next_task]. rewrite Hp.
    unfold await, promise_of. cbn [attempts set_closed set_next_task].
    rewrite Hx. cbn [fmap option_fmap option_map]. by rewrite Hpr. }
  split; [by rewrite H1|]. split.
  - subst st2. rewrite (open_connects s st1 k a x); try done;
      try (by rewrite H1).
    rewrite H1.
    cbn [closed ws connectingPromise log ready waiting set_ready set_waiting
         set_attempts set_connectingPromise emit set_log set_ws set_sockets
         set_currentRetryDelay set_closed set_next_task].
    repeat split; try done.
    apply elem_of_app. right. apply list_elem_of_fmap.
    exists (a, mkTask t K_close). split; [done|].
    apply list_elem_of_In, List.filter_In. split.
    + apply in_or_app. right. by left.
    + unfold waits_on. cbn [fst]. apply Nat.eqb_refl.
  - intros z k' Hz Hk' Hr'. unfold resume. cbn [task_cont task_id].
    unfold close_finish. rewrite Hz. unfold ws_close. rewrite Hk', Hr'.
    cbn [log sockets emit set_log set_sockets]. split; [|done].
    by rewrite <- app_assoc.
Qed.

Lemma close_waits_for_the_attempt_witness :
  log (step (SockOpen 0) (step (Call Close) connecting_client)) =
  log connecting_client ++ [ConnectionStatus true].
Proof.
  destruct (close_waits_for_the_attempt connecting_client 0%nat
              (mkSocket CONNECTING (Some 0%nat) (Some 0%nat) false false)
              0%nat (mkAttempt false false (Wired 0%nat) Pending))
    as (_ & (_ & _ & _ & H & _) & _); [reflexivity..|].
  exact H.
Defined.

(** X19.  When a socket that carries the client's close callback
    closes, the client signals [false], drops its transport and starts
    exactly one reconnect attempt with the delay of the retry policy,
    keeping handlers and subscribed channels for the replay.  An [error]
    event on such a socket whose attempt has completed does the same and
    no more: the error callback of a completed attempt returns at once,
    so the error followed by the close counts once. *)
Theorem lost_connection_schedules_one_retry st s k now :
  sockets st !! s = Some k -> readyState k <> CLOSED -> onclose k = true ->
  (forall a, onerror k = Some a ->
     exists x, attempts st !! a = Some x /\ att_promiseDone x = true) ->
  closed st = false -> too_old now st = false ->
  connectingPromise st = None ->
  let st' := step (SockClose s now) st in
  let a' := length (attempts st) in
  step (SockError s now) st = st' /\
  ws st' = None /\
  log st' = log st ++ [ConnectionStatus false; SetTimeout a' (next_delay st)] /\
  connectingPromise st' = Some a' /\
  attempts st' = attempts st ++ [mkAttempt true false Sleeping Pending] /\
  currentRetryDelay st' = next_delay st /\
  sockets st' = <[s := set_readyState CLOSED k]> (sockets st) /\
  handler st' = handler st /\ subscribed st' = subscribed st.
Proof.
  intros Hk Hr Hoc Hoe Hc Hold Hp st' a'.
  assert (st' =
    retryConnect now
      (set_ws None (triggerConnectionStatusEvent false
         (set_sockets (<[s:=set_readyState CLOSED k]> (sockets st)) st))))
    as Hst.
  { subst st'. cbn [step]. rewrite Hk. unfold fire_onclose.
    cbn [sockets set_sockets].
    rewrite list_lookup_insert_eq by (by eapply lookup_lt_Some).
    cbn [onclose set_readyState]. rewrite Hoc.
    by destruct (readyState k). }
  split.
  { rewrite Hst. cbn [step]. rewrite Hk.
    assert (match onerror k with
            | Some a =>
                socket_onerror a now
                  (set_sockets (<[s:=set_readyState CLOSED k]> (sockets st)) st)
            | None =>
                set_sockets (<[s:=set_readyState CLOSED k]> (sockets st)) st
            end = set_sockets (<[s:=set_readyState CLOSED k]> (sockets st)) st)
      as ->.
    { destruct (onerror k) as [a|]; [|done].
      destruct (Hoe a eq_refl) as (x & Hx & Hd). unfold socket_onerror.
      cbn [attempts set_sockets]. by rewrite Hx, Hd. }
    unfold fire_onclose. cbn [sockets set_sockets].
    rewrite list_lookup_insert_eq by (by eapply lookup_lt_Some).
    cbn [onclose set_readyState]. rewrite Hoc.
    by destruct (readyState k). }
  rewrite Hst. rewrite retryConnect_go by done.
  unfold connect, next_delay, triggerConnectionStatusEvent.
  cbn [closed connectingPromise config currentRetryDelay set_ws emit set_log
       set_sockets set_currentRetryDelay].
  rewrite Hc, Hp.
  cbn [snd ws log connectingPromise attempts currentRetryDelay sockets handler
       set_ws emit set_log set_sockets set_currentRetryDelay set_attempts
       set_connectingPromise].
  repeat split; try done. by rewrite <- app_assoc.
Qed.

Lemma lost_connection_schedules_one_retry_witness :
  log (step (SockClose 0 10) connected_client) =
  log connected_client ++ [ConnectionStatus false; SetTimeout 1 0].
Proof.
  destruct (lost_connection_schedules_one_retry connected_client 0%nat
              (mkSocket OPEN (Some 0%nat) (Some 0%nat) true true) 10)
    as (_ & _ & H & _);
    [reflexivity|discriminate|reflexivity| |reflexivity..|exact H].
  intros a Ha. injection Ha as <-.
  by exists (mkAttempt false true (Wired 0%nat) Fulfilled).
Defined.

(** ** The configuration *)

